(** * OCPI EMSP backend: token store and module store

    A shallow embedding of [core/auth.py] (class [ClientAuthenticator]),
    [core/crud.py] (class [EMSPCrud]) and the validators and properties of
    [core/config.py] (class [EMSPSettings]), and the properties of the
    specification and of the code that concern them.

    Conventions of the embedding.
    - Python [str] is [string], a character being a byte: [token[:8]] is
      [substring 0 8 token], which is the slice of Python for ASCII tokens.
    - Python [int] is [Z]; [bool] counts as an [int] where Python lets it.
    - A [dict] whose iteration order is never used is a [gmap]; the
      per-module storage, whose [values()] are sliced by [list], is an
      association list kept in insertion order.
    - Class attributes ([_valid_tokens_a], [_valid_tokens_c], [_storage]) are
      the state of a state-and-exception monad; [raise] leaves the state as
      it was when the exception left the method.
    - [uuid.uuid4()] and [datetime.now()] are inputs of the methods that
      call them.
    - The [logger] calls of auth.py are kept, since the level of the record
      is the one trace some methods leave of the branch they took; those of
      crud.py, which touch no result, are left out.
    - Dictionaries are values: the sharing between the [data] argument of
      [create] and the stored object, and the update in place of a stored
      dictionary, are not represented.  What is stated of the fields of an
      object is stated of the object a call writes or returns; of the other
      objects only what does not depend on sharing is stated: which ids
      are stored, and in which order. *)

From stdpp Require Import gmap strings list pretty.
From Stdlib Require Import ZArith.

#[local] Open Scope string_scope.
#[local] Set Warnings "-register-all".

(** ** Python values *)

Inductive pyval :=
  | PNone
  | PBool (b : bool)
  | PInt (z : Z)
  | PStr (s : string)
  | PList (l : list pyval)
  | PDict (d : gmap string pyval).

(** Truth value of an object, as used by [or] and [if]. *)
Definition truthy (v : pyval) : bool :=
  match v with
  | PNone => false
  | PBool b => b
  | PInt z => negb (z =? 0)%Z
  | PStr s => negb (String.eqb s "")
  | PList l => match l with [] => false | _ => true end
  | PDict d => negb (Nat.eqb (size d) 0)
  end.

(** [x or y] *)
Definition py_or (x y : pyval) : pyval := if truthy x then x else y.

(** The integer an object stands for in arithmetic and as an index. *)
Definition as_int (v : pyval) : option Z :=
  match v with
  | PInt z => Some z
  | PBool b => Some (if b then 1 else 0)%Z
  | _ => None
  end.

(** [d.get(k, dflt)] *)
Definition dict_get (d : gmap string pyval) (k : string) (dflt : pyval) : pyval :=
  default dflt (d !! k).

(** [l[start:stop]] for a list of length [n]: an index below zero counts
    from the end, and both ends are clipped to [0..n]. *)
Definition slice_index (n i : Z) : Z :=
  if (i <? 0)%Z then Z.max 0 (i + n) else Z.min i n.

Definition py_slice {A} (l : list A) (start stop : Z) : list A :=
  let n := Z.of_nat (length l) in
  let s := slice_index n start in
  let e := slice_index n stop in
  take (Z.to_nat (e - s)) (drop (Z.to_nat s) l).

(** [l.remove(x)]: the first occurrence goes. *)
Fixpoint list_remove (x : string) (l : list string) : list string :=
  match l with
  | [] => []
  | y :: l' => if decide (x = y) then l' else y :: list_remove x l'
  end.

(** ** Exceptions and the method monad *)

Inductive exn :=
  | NotFoundOCPIError
  | TypeError
  | KeyError (k : string).

Inductive outcome (A : Type) :=
  | Return (a : A)
  | Raise (e : exn).
Arguments Return {A} a.
Arguments Raise {A} e.

Definition M (S A : Type) : Type := S -> outcome A * S.

Definition ret {S A} (a : A) : M S A := fun s => (Return a, s).
Definition raise {S A} (e : exn) : M S A := fun s => (Raise e, s).
Definition bind {S A B} (m : M S A) (k : A -> M S B) : M S B :=
  fun s => match m s with
           | (Return a, s') => k a s'
           | (Raise e, s') => (Raise e, s')
           end.
Definition gets {S A} (f : S -> A) : M S A := fun s => (Return (f s), s).
Definition modify {S} (f : S -> S) : M S unit := fun s => (Return tt, f s).

Notation "x <- c1 ;; c2" := (bind c1 (fun x => c2))
  (at level 63, c1 at next level, right associativity).
Notation "c1 ;;; c2" := (bind c1 (fun _ => c2))
  (at level 63, right associativity).

(** ** Logging *)

Inductive level := DEBUG | INFO | WARNING.

Definition log_record : Type := level * string.

(** ** core/auth.py *)

Module ClientAuthenticator.

Record state := mk_state {
  _valid_tokens_a : list string;
  _valid_tokens_c : list string;
  log : list log_record
}.

Definition initial : state := {|
  _valid_tokens_a :=
    [ "emsp_token_a_12345"; "emsp_token_a_67890"; "emsp_development_token_a" ];
  _valid_tokens_c :=
    [ "cpo_token_c_abcdef"; "cpo_token_c_ghijkl"; "cpo_development_token_c";
      "test_token_c_123" ];
  log := []
|}.

Definition logger (lv : level) (msg : string) : M state unit :=
  modify (fun st => mk_state (_valid_tokens_a st) (_valid_tokens_c st)
                             (log st ++ [(lv, msg)])).

Definition set_tokens_a (l : list string) : M state unit :=
  modify (fun st => mk_state l (_valid_tokens_c st) (log st)).

Definition set_tokens_c (l : list string) : M state unit :=
  modify (fun st => mk_state (_valid_tokens_a st) l (log st)).

(** [token[:8]] *)
Definition prefix8 (token : string) : string := String.substring 0 8 token.

Definition get_valid_token_a : M state (list string) :=
  tokens <- gets _valid_tokens_a ;;
  logger DEBUG ("Auth: Returning " ++ pretty (length tokens)
                ++ " valid Token A entries.") ;;;
  ret tokens.

Definition get_valid_token_c : M state (list string) :=
  tokens <- gets _valid_tokens_c ;;
  logger DEBUG ("Auth: Returning " ++ pretty (length tokens)
                ++ " valid Token C entries.") ;;;
  ret tokens.

Definition add_token_a (token : string) : M state unit :=
  tokens <- gets _valid_tokens_a ;;
  if bool_decide (token ∉ tokens) then
    set_tokens_a (tokens ++ [token]) ;;;
    logger INFO ("Auth: Added new Token A: " ++ prefix8 token ++ "...")
  else
    logger WARNING ("Auth: Token A already exists, not adding: "
                    ++ prefix8 token ++ "...").

Definition add_token_c (token : string) : M state unit :=
  tokens <- gets _valid_tokens_c ;;
  if bool_decide (token ∉ tokens) then
    set_tokens_c (tokens ++ [token]) ;;;
    logger INFO ("Auth: Added new Token C: " ++ prefix8 token ++ "...")
  else
    logger WARNING ("Auth: Token C already exists, not adding: "
                    ++ prefix8 token ++ "...").

Definition remove_token_a (token : string) : M state bool :=
  tokens <- gets _valid_tokens_a ;;
  if bool_decide (token ∈ tokens) then
    set_tokens_a (list_remove token tokens) ;;;
    logger INFO ("Auth: Removed Token A: " ++ prefix8 token ++ "... .") ;;;
    ret true
  else
    logger WARNING ("Auth: Token A not found for removal: "
                    ++ prefix8 token ++ "... .") ;;;
    ret false.

Definition remove_token_c (token : string) : M state bool :=
  tokens <- gets _valid_tokens_c ;;
  if bool_decide (token ∈ tokens) then
    set_tokens_c (list_remove token tokens) ;;;
    logger INFO ("Auth: Removed Token C: " ++ prefix8 token ++ "... .") ;;;
    ret true
  else
    logger WARNING ("Auth: Token C not found for removal: "
                    ++ prefix8 token ++ "... .") ;;;
    ret false.

(** [token in tokens] for a [token] that may be [None]: the lists hold
    strings only. *)
Definition token_in (token : option string) (tokens : list string) : bool :=
  match token with
  | Some t => bool_decide (t ∈ tokens)
  | None => false
  end.

Definition is_token_valid (token : option string) : M state bool :=
  match token with
  | None =>
      logger WARNING "Auth: Token validation failed: None token provided." ;;;
      ret false
  | Some t =>
      tokens_a <- get_valid_token_a ;;
      tokens_c <- get_valid_token_c ;;
      let is_valid := token_in token tokens_a || token_in token tokens_c in
      (if is_valid then
         logger DEBUG ("Auth: Token validation successful for: "
                       ++ prefix8 t ++ "... .")
       else
         logger WARNING ("Auth: Token validation failed for: "
                         ++ (if truthy (PStr t) then prefix8 t else "None")
                         ++ "... . Invalid or unknown token.")) ;;;
      ret is_valid
  end.

Definition token_info (type : string) (valid : bool) (description : string)
  : gmap string pyval :=
  {[ "type" := PStr type; "valid" := PBool valid;
     "description" := PStr description ]}.

Definition get_token_info (token : option string) : M state (gmap string pyval) :=
  tokens_a <- get_valid_token_a ;;
  tokens_c <- get_valid_token_c ;;
  if token_in token tokens_a then
    ret (token_info "TOKEN_A" true "EMSP authentication token for CPO systems")
  else if token_in token tokens_c then
    ret (token_info "TOKEN_C" true "CPO authentication token for EMSP system")
  else
    ret (token_info "UNKNOWN" false "Invalid or unknown token").

(** [[f"{token[:8]}..." for token in tokens[:3]]] *)
Definition token_samples (tokens : list string) : list pyval :=
  (fun token => PStr (prefix8 token ++ "...")) <$> take 3 tokens.

Definition token_summary (tokens : list string) : pyval :=
  PDict {[ "count" := PInt (Z.of_nat (length tokens));
           "samples" := PList (token_samples tokens) ]}.

Definition get_token_summary : M state (gmap string pyval) :=
  tokens_a <- gets _valid_tokens_a ;;
  tokens_c <- gets _valid_tokens_c ;;
  ret {[ "tokens_a" := token_summary tokens_a;
         "tokens_c" := token_summary tokens_c ]}.

End ClientAuthenticator.

(** ** core/crud.py *)

(** [ModuleID], [RoleEnum] and [Action] are enumerations of the py_ocpi
    framework; their members are the ones the framework declares, and the
    string a member stands for ([.value]) is not fixed here.  Each
    member of [ModuleID] has its entry in [module_mapping], and each member
    of [Action] its branch in [do]: the fallback [module.value] of
    [_get_storage_key] and the final [else] of [do], which returns
    [{"result": "UNKNOWN_ACTION"}], are never taken. *)
Inductive ModuleID :=
  | cdrs
  | charging_profile
  | commands
  | credentials_and_registration
  | hub_client_info
  | locations
  | sessions
  | tariffs
  | tokens.

Inductive RoleEnum := cpo | emsp | hub | nap | nsp | other | scsp.

Inductive Action :=
  | get_client_token
  | authorize_token
  | send_command
  | send_get_chargingprofile
  | send_delete_chargingprofile
  | send_update_charging_profile.

#[global] Instance ModuleID_eq_dec : EqDecision ModuleID.
Proof. solve_decision. Defined.

#[global] Instance Action_eq_dec : EqDecision Action.
Proof. solve_decision. Defined.

(** Keys of the per-module dictionaries: the hashable scalars.  [True] and
    [1] are the same key, as are [False] and [0]. *)
Inductive pykey :=
  | KNone
  | KInt (z : Z)
  | KStr (s : string).

#[global] Instance pykey_eq_dec : EqDecision pykey.
Proof. solve_decision. Defined.

(** [hash(v)] succeeds on scalars and fails on lists and dictionaries. *)
Definition key_of (v : pyval) : option pykey :=
  match v with
  | PNone => Some KNone
  | PBool b => Some (KInt (if b then 1 else 0))
  | PInt z => Some (KInt z)
  | PStr s => Some (KStr s)
  | PList _ | PDict _ => None
  end.

(** A dictionary in insertion order. *)
Section odict.
Context {V : Type}.

Definition odict : Type := list (pykey * V).

(** [d[k]], [k in d] *)
Fixpoint odict_get (k : pykey) (d : odict) : option V :=
  match d with
  | [] => None
  | (k', v) :: d' => if decide (k = k') then Some v else odict_get k d'
  end.

(** [d[k] = v]: a present key keeps its place, a new one goes last. *)
Fixpoint odict_set (k : pykey) (v : V) (d : odict) : odict :=
  match d with
  | [] => [(k, v)]
  | (k', v') :: d' =>
      if decide (k = k') then (k, v) :: d' else (k', v') :: odict_set k v d'
  end.

(** [del d[k]] *)
Fixpoint odict_del (k : pykey) (d : odict) : odict :=
  match d with
  | [] => []
  | (k', v') :: d' =>
      if decide (k = k') then d' else (k', v') :: odict_del k d'
  end.

(** [list(d.values())] *)
Definition odict_values (d : odict) : list V := d.*2.
End odict.
Arguments odict V : clear implicits.

Module EMSPCrud.

Abbreviation object := (gmap string pyval).

Abbreviation state := (gmap string (odict object)).

Definition _storage : state :=
  list_to_map
    [ ("locations", []); ("sessions", []); ("cdrs", []); ("tariffs", []);
      ("commands", []); ("tokens", []); ("hub_client_info", []);
      ("charging_profiles", []); ("credentials", []) ].

Definition _get_storage_key (module : ModuleID) : string :=
  match module with
  | locations => "locations"
  | sessions => "sessions"
  | cdrs => "cdrs"
  | tariffs => "tariffs"
  | commands => "commands"
  | tokens => "tokens"
  | hub_client_info => "hub_client_info"
  | charging_profile => "charging_profiles"
  | credentials_and_registration => "credentials"
  end.

(** [cls._storage[storage_key]] *)
Definition storage_of (storage_key : string) : M state (odict object) :=
  fun st => match st !! storage_key with
            | Some d => (Return d, st)
            | None => (Raise (KeyError storage_key), st)
            end.

(** [cls._storage[storage_key] = d], for a key that is present. *)
Definition set_storage (storage_key : string) (d : odict object) : M state unit :=
  modify (fun st => <[storage_key := d]> st).

Definition get (module : ModuleID) (role : RoleEnum) (id : string)
  : M state object :=
  let storage_key := _get_storage_key module in
  d <- storage_of storage_key ;;
  match odict_get (KStr id) d with
  | None => raise NotFoundOCPIError
  | Some data => ret data
  end.

Definition list_ (module : ModuleID) (role : RoleEnum) (filters : gmap string pyval)
  : M state (list object * Z * bool) :=
  let storage_key := _get_storage_key module in
  d <- storage_of storage_key ;;
  let all_objects := odict_values d in
  let offset := dict_get filters "offset" (PInt 0) in
  let limit := dict_get filters "limit" (PInt 50) in
  let total_count := Z.of_nat (length all_objects) in
  match as_int offset, as_int limit with
  | Some offset, Some limit =>
      let start_idx := offset in
      let end_idx := Z.min (offset + limit) total_count in
      let objects_list := py_slice all_objects start_idx end_idx in
      let is_last_page := (end_idx >=? total_count)%Z in
      ret (objects_list, total_count, is_last_page)
  | _, _ => raise TypeError
  end.

Definition create (module : ModuleID) (role : RoleEnum) (data : object)
    (uuid4 now : string) : M state object :=
  let storage_key := _get_storage_key module in
  let object_id := py_or (dict_get data "id" PNone) (PStr uuid4) in
  let data := <["id" := object_id]> data in
  let data := <["last_updated" := PStr now]> data in
  d <- storage_of storage_key ;;
  match key_of object_id with
  | None => raise TypeError
  | Some k =>
      set_storage storage_key (odict_set k data d) ;;;
      ret data
  end.

Definition update (module : ModuleID) (role : RoleEnum) (data : object)
    (id : string) (now : string) : M state object :=
  let storage_key := _get_storage_key module in
  d <- storage_of storage_key ;;
  match odict_get (KStr id) d with
  | None => raise NotFoundOCPIError
  | Some existing_data =>
      let existing_data := data ∪ existing_data in
      let existing_data := <["last_updated" := PStr now]> existing_data in
      set_storage storage_key (odict_set (KStr id) existing_data d) ;;;
      ret existing_data
  end.

Definition delete (module : ModuleID) (role : RoleEnum) (id : string)
  : M state unit :=
  let storage_key := _get_storage_key module in
  d <- storage_of storage_key ;;
  match odict_get (KStr id) d with
  | None => raise NotFoundOCPIError
  | Some _ => set_storage storage_key (odict_del (KStr id) d)
  end.

(** [action_value] is [Action.value]: the strings that the members of
    [Action] stand for are declared by the framework, not by this
    repository, and [do], which formats one into a message, takes them as
    a parameter. *)
Definition do (action_value : Action -> string) (module : ModuleID)
    (role : option RoleEnum) (action : Action)
    (data : option (gmap string pyval)) (kwargs : gmap string pyval)
    (uuid4 : string) : M state pyval :=
  match action with
  | get_client_token =>
      ret (PStr ("mock_client_token_" ++ String.substring 0 8 uuid4))
  | authorize_token =>
      ret (PDict {[
        "allowed" := PStr "ALLOWED";
        "authorization_info" := PDict {[
          "allowed" := PStr "ALLOWED";
          "token" := dict_get kwargs "token" (PStr "unknown");
          "location" := dict_get kwargs "location" PNone ]} ]})
  | send_command =>
      let command_id := uuid4 in
      ret (PDict {[
        "result" := PStr "ACCEPTED";
        "timeout" := PInt 30;
        "message" := PStr "Command accepted for processing" ]})
  | send_get_chargingprofile
  | send_delete_chargingprofile
  | send_update_charging_profile =>
      ret (PDict {[
        "result" := PStr "ACCEPTED";
        "timeout" := PInt 30;
        "message" := PStr ("Charging profile " ++ action_value action
                           ++ " accepted") ]})
  end.

(** [{key: len(value) for key, value in cls._storage.items()}] *)
Definition get_mock_data_summary : M state (gmap string Z) :=
  gets (fun st => (fun d : odict object => Z.of_nat (length d)) <$> st).

End EMSPCrud.

(** ** core/config.py *)

(** The character [","]. *)
Definition comma : Ascii.ascii := Ascii.ascii_of_nat 44.

Module EMSPSettings.
Definition COMMAND_AWAIT_TIME : Z := 30.

(** The outcome of a validator: the value it returns or the argument of the
    [ValueError] it raises. *)
Inductive validated (A : Type) :=
  | Valid (a : A)
  | ValueError (arg : pyval).
Arguments Valid {A} a.
Arguments ValueError {A} arg.

(** [c.upper()] for an ASCII character. *)
Definition ascii_upper (c : Ascii.ascii) : Ascii.ascii :=
  let n := Ascii.nat_of_ascii c in
  if (97 <=? n)%nat && (n <=? 122)%nat then Ascii.ascii_of_nat (n - 32) else c.

(** [v.upper()] for an ASCII string. *)
Fixpoint upper (v : string) : string :=
  match v with
  | EmptyString => EmptyString
  | String c v' => String (ascii_upper c) (upper v')
  end.

(** The strings whose characters are all ASCII: on them a byte is a
    character and [upper] is the method of Python. *)
Fixpoint is_ascii (v : string) : bool :=
  match v with
  | EmptyString => true
  | String c v' => (Ascii.nat_of_ascii c <? 128)%nat && is_ascii v'
  end.

Definition validate_protocol (v : string) : validated string :=
  if bool_decide (v ∉ ["http"; "https"]) then
    ValueError (PStr "Protocol must be 'http' or 'https'")
  else Valid v.

Definition validate_country_code (v : string) : validated string :=
  if negb (String.length v =? 2)%nat then
    ValueError (PStr "Country code must be exactly 2 characters")
  else Valid (upper v).

Definition validate_party_id (v : string) : validated string :=
  if negb (String.length v =? 3)%nat then
    ValueError (PStr "Party ID must be exactly 3 characters")
  else Valid (upper v).

(** [s.replace(old, new)] for a non-empty [old]: the occurrences of [old]
    are replaced from the left, without overlap.  [skip] counts the
    characters of an occurrence under way that are still to be passed. *)
Fixpoint replace_from (old new : string) (skip : nat) (s : string) : string :=
  match s with
  | EmptyString => EmptyString
  | String c s' =>
      match skip with
      | S k => replace_from old new k s'
      | O =>
          if String.prefix old s then
            new ++ replace_from old new (String.length old - 1) s'
          else String c (replace_from old new 0 s')
      end
  end.

Definition str_replace (old new s : string) : string :=
  replace_from old new 0 s.

(** [c.isspace()] for an ASCII character: tab, line feed, vertical tab,
    form feed, carriage return, the four separators 0x1c to 0x1f, and the
    space. *)
Definition is_space (c : Ascii.ascii) : bool :=
  let n := Ascii.nat_of_ascii c in
  ((9 <=? n)%nat && (n <=? 13)%nat) || ((28 <=? n)%nat && (n <=? 32)%nat).

(** [s.lstrip()], [s.rstrip()] and [s.strip()] for an ASCII string. *)
Fixpoint lstrip (s : string) : string :=
  match s with
  | EmptyString => EmptyString
  | String c s' => if is_space c then lstrip s' else s
  end.

Fixpoint rstrip (s : string) : string :=
  match s with
  | EmptyString => EmptyString
  | String c s' =>
      match rstrip s' with
      | EmptyString => if is_space c then EmptyString else String c EmptyString
      | r => String c r
      end
  end.

Definition strip (s : string) : string := rstrip (lstrip s).

(** [s.split(",")]: an entry for each stretch between commas, the empty
    ones included. *)
Fixpoint split_comma (s : string) : list string :=
  match s with
  | EmptyString => [EmptyString]
  | String c s' =>
      if Ascii.eqb c comma then EmptyString :: split_comma s'
      else match split_comma s' with
           | h :: t => String c h :: t
           | [] => [String c EmptyString]
           end
  end.

Definition assemble_cors_origins (v : pyval) : validated pyval :=
  match v with
  | PStr s =>
      if negb (String.prefix "[" s) then
        Valid (PList ((fun i => PStr (strip i)) <$> split_comma s))
      else Valid v
  | PList _ => Valid v
  | _ => ValueError v
  end.

(** The settings that the properties below read. *)
Record settings := mk_settings {
  PROTOCOL : string;
  OCPI_HOST : string;
  OCPI_PREFIX : string;
  DATABASE_URL : option string
}.

Definition base_url (self : settings) : string :=
  PROTOCOL self ++ "://" ++ OCPI_HOST self.

Definition ocpi_base_url (self : settings) : string :=
  base_url self ++ "/" ++ OCPI_PREFIX self.

Definition database_url_sync (self : settings) : option string :=
  match DATABASE_URL self with
  | Some url =>
      if truthy (PStr url) then
        Some (str_replace "postgresql://" "postgresql+psycopg2://" url)
      else None
  | None => None
  end.

Definition database_url_async (self : settings) : option string :=
  match DATABASE_URL self with
  | Some url =>
      if truthy (PStr url) then
        Some (str_replace "postgresql://" "postgresql+asyncpg://" url)
      else None
  | None => None
  end.
End EMSPSettings.

(** The number of commas of a string. *)
Fixpoint count_commas (s : string) : nat :=
  match s with
  | EmptyString => 0
  | String c s' => (if Ascii.eqb c comma then 1 else 0) + count_commas s'
  end.

(** The strings that do not start with a white space character. *)
Definition starts_nonspace (s : string) : Prop :=
  match s with
  | EmptyString => True
  | String c _ => EMSPSettings.is_space c = false
  end.

(** The strings that do not end with a white space character. *)
Fixpoint ends_nonspace (s : string) : Prop :=
  match s with
  | EmptyString => True
  | String c s' =>
      match s' with
      | EmptyString => EMSPSettings.is_space c = false
      | String _ _ => ends_nonspace s'
      end
  end.

(** The strings made of white space only. *)
Fixpoint all_space (s : string) : bool :=
  match s with
  | EmptyString => true
  | String c s' => EMSPSettings.is_space c && all_space s'
  end.

(** [",".join(pieces)] *)
Fixpoint join_comma (pieces : list string) : string :=
  match pieces with
  | [] => EmptyString
  | p :: pieces' =>
      match pieces' with
      | [] => p
      | _ :: _ => p ++ String comma (join_comma pieces')
      end
  end.

(** [origin] is [piece] without the white space at its two ends. *)
Definition stripped_of (piece origin : string) : Prop :=
  ∃ l r, piece = l ++ origin ++ r ∧ all_space l = true ∧ all_space r = true ∧
         starts_nonspace origin ∧ ends_nonspace origin.

(** [old in s]: [old] starts at some position of [s]. *)
Fixpoint occurs_in (old s : string) : bool :=
  String.prefix old s ||
  match s with
  | EmptyString => false
  | String _ s' => occurs_in old s'
  end.

(** ** The TokenStore contract over [ClientAuthenticator] *)

Inductive token_class := TOKEN_A | TOKEN_C.

#[global] Instance token_class_eq_dec : EqDecision token_class.
Proof. solve_decision. Defined.

Definition other_class (c : token_class) : token_class :=
  match c with TOKEN_A => TOKEN_C | TOKEN_C => TOKEN_A end.

Definition tokens_of (c : token_class) (st : ClientAuthenticator.state) : list string :=
  match c with
  | TOKEN_A => ClientAuthenticator._valid_tokens_a st
  | TOKEN_C => ClientAuthenticator._valid_tokens_c st
  end.

Definition add (c : token_class) (token : string) : M ClientAuthenticator.state unit :=
  match c with
  | TOKEN_A => ClientAuthenticator.add_token_a token
  | TOKEN_C => ClientAuthenticator.add_token_c token
  end.

Definition remove (c : token_class) (token : string) : M ClientAuthenticator.state bool :=
  match c with
  | TOKEN_A => ClientAuthenticator.remove_token_a token
  | TOKEN_C => ClientAuthenticator.remove_token_c token
  end.

Inductive token_op :=
  | Add (c : token_class) (token : string)
  | Remove (c : token_class) (token : string).

#[global] Instance token_op_eq_dec : EqDecision token_op.
Proof. solve_decision. Defined.

Definition exec_op (st : ClientAuthenticator.state) (op : token_op)
  : ClientAuthenticator.state :=
  match op with
  | Add c t => snd (add c t st)
  | Remove c t => snd (remove c t st)
  end.

Definition exec_ops (ops : list token_op) (st : ClientAuthenticator.state)
  : ClientAuthenticator.state :=
  foldl exec_op st ops.

(** The level of the record a call appended to the log last. *)
Definition last_level (st : ClientAuthenticator.state) : option level :=
  fst <$> last (ClientAuthenticator.log st).

Definition info_token_a : gmap string pyval :=
  ClientAuthenticator.token_info "TOKEN_A" true
    "EMSP authentication token for CPO systems".

Definition info_unknown : gmap string pyval :=
  ClientAuthenticator.token_info "UNKNOWN" false "Invalid or unknown token".

(** ** The ModuleStore contract over [EMSPCrud] *)

(** The objects stored for a module, in insertion order. *)
Definition module_objects (module : ModuleID) (st : EMSPCrud.state)
  : odict EMSPCrud.object :=
  default [] (st !! EMSPCrud._get_storage_key module).

Definition truthy_key (k : pykey) : bool :=
  match k with
  | KNone => false
  | KInt z => negb (z =? 0)%Z
  | KStr s => negb (String.eqb s "")
  end.

(** The states of [_storage] that calls of the writing methods lead to.
    [str(uuid.uuid4())] is never the empty string. *)
Inductive reachable : EMSPCrud.state -> Prop :=
  | reachable_init : reachable EMSPCrud._storage
  | reachable_create st module role data uuid4 now :
      reachable st -> uuid4 ≠ "" ->
      reachable (snd (EMSPCrud.create module role data uuid4 now st))
  | reachable_update st module role data id now :
      reachable st ->
      reachable (snd (EMSPCrud.update module role data id now st))
  | reachable_delete st module role id :
      reachable st ->
      reachable (snd (EMSPCrud.delete module role id st)).

(** Every module has its dictionary, and every key in it is a truthy one. *)
Definition storage_inv (st : EMSPCrud.state) : Prop :=
  ∀ module, ∃ d,
    st !! EMSPCrud._get_storage_key module = Some d ∧
    Forall (λ kv, truthy_key kv.1 = true) d.

(** Timestamps of one ISO-8601 format and time zone compare as strings. *)
Definition timestamp_le (a b : string) : bool := String.leb a b.

(** The window of the specification: [date_from], when given, is not after
    [last_updated], and [date_to], when given, is after it. *)
Definition spec_in_window (filters : gmap string pyval) (obj : EMSPCrud.object) : bool :=
  match obj !! "last_updated" with
  | Some (PStr t) =>
      match filters !! "date_from" with
      | Some (PStr from) => timestamp_le from t
      | _ => true
      end
      &&
      match filters !! "date_to" with
      | Some (PStr to) => negb (timestamp_le to t)
      | _ => true
      end
  | _ => false
  end.

(** The payload check of the specification's [send]: non-empty
    [location_id], [evse_uid] and [connector_id], and a token reference that
    is a dictionary. *)
Definition nonempty_str (v : option pyval) : bool :=
  match v with
  | Some (PStr s) => negb (String.eqb s "")
  | _ => false
  end.

Definition spec_valid_payload (data : option (gmap string pyval)) : bool :=
  match data with
  | None => false
  | Some p =>
      nonempty_str (p !! "location_id") && nonempty_str (p !! "evse_uid")
      && nonempty_str (p !! "connector_id")
      && match p !! "token" with Some (PDict _) => true | _ => false end
  end.

(** The result [do] returns for [Action.send_command]. *)
Definition command_accepted : gmap string pyval :=
  {[ "result" := PStr "ACCEPTED"; "timeout" := PInt 30;
     "message" := PStr "Command accepted for processing" ]}.

(** ** Sample inputs *)

Definition sample_location : gmap string pyval :=
  {[ "id" := PStr "LOC001"; "name" := PStr "Station 1";
     "city" := PStr "Amsterdam" ]}.

(** The storage after one [create] in the locations module. *)
Definition sample_storage : EMSPCrud.state :=
  snd (EMSPCrud.create locations emsp sample_location
         "3f2b8c1e-7d4a-4e0b-9c55-0a1b2c3d4e5f" "2020-06-01T00:00:00+00:00"
         EMSPCrud._storage).

Definition sample_stored_location : gmap string pyval :=
  <["last_updated" := PStr "2020-06-01T00:00:00+00:00"]> sample_location.

Definition sample_window : gmap string pyval :=
  {[ "date_from" := PStr "2023-01-01T00:00:00+00:00";
     "date_to" := PStr "2023-12-31T23:59:59+00:00" ]}.

(** An assignment of values to the members of [Action]. *)
Definition sample_action_value (action : Action) : string :=
  match action with
  | get_client_token => "GetClientToken"
  | authorize_token => "AuthorizeToken"
  | send_command => "SendCommand"
  | send_get_chargingprofile => "SendGetChargingProfile"
  | send_delete_chargingprofile => "SendDeleteChargingProfile"
  | send_update_charging_profile => "SendUpdateChargingProfile"
  end.

(** The command of [test_command_error_handling]. *)
Definition invalid_command : gmap string pyval :=
  {[ "response_url" := PStr "invalid-url";
     "token" := PDict {[ "country_code" := PStr ""; "party_id" := PStr "";
                         "uid" := PStr ""; "type" := PStr "INVALID";
                         "contract_id" := PStr "" ]};
     "location_id" := PStr ""; "evse_uid" := PStr "";
     "connector_id" := PStr "" ]}.

(** * Properties *)

(** Unfolding of the methods and of the monad. *)
Ltac run_method :=
  cbv [add remove
       ClientAuthenticator.add_token_a ClientAuthenticator.add_token_c
       ClientAuthenticator.remove_token_a ClientAuthenticator.remove_token_c
       ClientAuthenticator.is_token_valid ClientAuthenticator.get_token_info
       ClientAuthenticator.get_valid_token_a ClientAuthenticator.get_valid_token_c
       ClientAuthenticator.logger ClientAuthenticator.set_tokens_a
       ClientAuthenticator.set_tokens_c
       bind ret raise gets modify]; simpl.

Ltac run_crud :=
  cbv [EMSPCrud.get EMSPCrud.list_ EMSPCrud.create EMSPCrud.update
       EMSPCrud.delete EMSPCrud.do EMSPCrud.storage_of EMSPCrud.set_storage
       bind ret raise gets modify].

(** ** Lists of tokens *)

Lemma list_remove_elem_of x y l : y ∈ list_remove x l -> y ∈ l.
Proof.
  induction l as [|z l IH]; simpl; [done|].
  destruct (decide (x = z)) as [->|Hne].
  - apply list_elem_of_further.
  - rewrite !elem_of_cons. intros [->|Hin]; [by left|right; by apply IH].
Qed.

Lemma list_remove_NoDup x l : NoDup l -> NoDup (list_remove x l).
Proof.
  induction 1 as [|y l Hy Hl IH]; simpl; [constructor|].
  destruct (decide (x = y)); [done|].
  constructor; [|done].
  intros Hin. apply Hy. by eapply list_remove_elem_of.
Qed.

Lemma list_remove_other x y l : x ≠ y -> x ∈ l -> x ∈ list_remove y l.
Proof.
  intros Hne. induction l as [|z l IH]; simpl; [done|].
  destruct (decide (y = z)) as [->|Hyz]; rewrite !elem_of_cons.
  - intros [->|Hin]; done.
  - intros [->|Hin]; [by left|right; by apply IH].
Qed.

(** ** What each method of [ClientAuthenticator] computes *)

Section auth.
Import ClientAuthenticator.
Implicit Types (st : state) (t : string) (c : token_class).

Lemma add_returns_none c t st : fst (add c t st) = Return tt.
Proof. destruct c; run_method; by case_bool_decide. Qed.

Lemma add_tokens_same_class c t st :
  tokens_of c (snd (add c t st)) =
    if bool_decide (t ∈ tokens_of c st) then tokens_of c st
    else (tokens_of c st ++ [t])%list.
Proof.
  destruct c; run_method; repeat case_bool_decide; simpl; done.
Qed.

Lemma add_tokens_other_class c t st :
  tokens_of (other_class c) (snd (add c t st)) = tokens_of (other_class c) st.
Proof. destruct c; run_method; by case_bool_decide. Qed.

Lemma add_last_level c t st :
  last_level (snd (add c t st)) =
    Some (if bool_decide (t ∈ tokens_of c st) then WARNING else INFO).
Proof.
  unfold last_level.
  destruct c; run_method; repeat case_bool_decide; simpl;
    by rewrite ?last_snoc.
Qed.

Lemma remove_tokens_same_class c t st :
  tokens_of c (snd (remove c t st)) = list_remove t (tokens_of c st).
Proof.
  destruct c; run_method; case_bool_decide; simpl; try done.
  all: symmetry; induction (_ st) as [|y l IH]; simpl; [done|];
    case_decide; [set_solver|]; f_equal; apply IH; set_solver.
Qed.

Lemma remove_tokens_other_class c t st :
  tokens_of (other_class c) (snd (remove c t st)) = tokens_of (other_class c) st.
Proof. destruct c; run_method; by case_bool_decide. Qed.

Lemma is_token_valid_result (token : option string) st :
  fst (is_token_valid token st) =
    Return (token_in token (_valid_tokens_a st)
            || token_in token (_valid_tokens_c st)).
Proof.
  destruct token as [t|]; run_method; [|done].
  by destruct (_ || _).
Qed.

Lemma get_token_info_result (token : option string) st :
  fst (get_token_info token st) =
    Return (if token_in token (_valid_tokens_a st) then info_token_a
            else if token_in token (_valid_tokens_c st) then
              token_info "TOKEN_C" true "CPO authentication token for EMSP system"
            else info_unknown).
Proof. run_method. by repeat destruct (token_in _ _). Qed.

End auth.

(** ** Sequences of operations *)

Section ops.
Import ClientAuthenticator.
Implicit Types (st : state) (t : string) (c : token_class) (ops : list token_op).

Lemma tokens_of_exec_op c st op :
  tokens_of c (exec_op st op) =
    match op with
    | Add c' t =>
        if decide (c = c') then
          if bool_decide (t ∈ tokens_of c st) then tokens_of c st
          else (tokens_of c st ++ [t])%list
        else tokens_of c st
    | Remove c' t =>
        if decide (c = c') then list_remove t (tokens_of c st)
        else tokens_of c st
    end.
Proof.
  destruct op as [c' t|c' t]; simpl; case_decide as Hc; subst.
  - apply add_tokens_same_class.
  - destruct c, c'; try done;
      [apply (add_tokens_other_class TOKEN_C)|apply (add_tokens_other_class TOKEN_A)].
  - apply remove_tokens_same_class.
  - destruct c, c'; try done;
      [apply (remove_tokens_other_class TOKEN_C)
      |apply (remove_tokens_other_class TOKEN_A)].
Qed.

Lemma exec_op_NoDup c st op :
  NoDup (tokens_of c st) -> NoDup (tokens_of c (exec_op st op)).
Proof.
  intros Hnd. rewrite tokens_of_exec_op.
  destruct op as [c' t|c' t]; case_decide; try done.
  - case_bool_decide as Hin; [done|].
    apply NoDup_app. split_and!; [done| |apply NoDup_singleton].
    intros x Hx ->%list_elem_of_singleton. done.
  - by apply list_remove_NoDup.
Qed.

Lemma exec_ops_NoDup c ops st :
  NoDup (tokens_of c st) -> NoDup (tokens_of c (exec_ops ops st)).
Proof.
  revert st. induction ops as [|op ops IH]; intros st Hnd; [done|].
  apply IH. by apply exec_op_NoDup.
Qed.

Lemma exec_op_keeps c t st op :
  op ≠ Remove c t -> t ∈ tokens_of c st -> t ∈ tokens_of c (exec_op st op).
Proof.
  intros Hop Hin. rewrite tokens_of_exec_op.
  destruct op as [c' t'|c' t']; case_decide; subst; try done.
  - case_bool_decide; set_solver.
  - apply list_remove_other; [congruence|done].
Qed.

Lemma exec_ops_keeps c t ops st :
  Remove c t ∉ ops -> t ∈ tokens_of c st -> t ∈ tokens_of c (exec_ops ops st).
Proof.
  revert st. induction ops as [|op ops IH]; intros st Hops Hin; [done|].
  apply IH; [set_solver|].
  apply exec_op_keeps; [|done]. intros ->. set_solver.
Qed.

Lemma add_then_member c t st : t ∈ tokens_of c (snd (add c t st)).
Proof. rewrite add_tokens_same_class. case_bool_decide; set_solver. Qed.

End ops.

(** ** TokenStore claims *)

Section token_store.
Import ClientAuthenticator.
Implicit Types (st : state) (t : string) (c : token_class) (ops : list token_op).

(** C3, as stated, fails: from the initial lists, [add_token_c] of a token
    that is in the Token-A list returns normally, and the token is then a
    member of both lists. *)
Lemma add_accepts_token_of_other_class :
  let st := exec_ops [Add TOKEN_C "emsp_token_a_12345"] initial in
  fst (add TOKEN_C "emsp_token_a_12345" initial) = Return tt ∧
  "emsp_token_a_12345" ∈ tokens_of TOKEN_A st ∧
  "emsp_token_a_12345" ∈ tokens_of TOKEN_C st.
Proof.
  split_and!; [reflexivity| |];
    apply (bool_decide_unpack _); vm_compute; exact I.
Qed.

(** C3, amended: after any sequence of add and remove operations on lists
    that start without duplicates, neither the Token-A list nor the
    Token-C list holds a token twice; across the classes nothing is
    enforced: adding to a class a token that is in the other class
    returns normally and leaves the token in both. *)
Theorem token_classes_unique_within_not_across ops st c t :
  NoDup (tokens_of TOKEN_A st) ->
  NoDup (tokens_of TOKEN_C st) ->
  t ∈ tokens_of (other_class c) (exec_ops ops st) ->
  NoDup (tokens_of TOKEN_A (exec_ops ops st)) ∧
  NoDup (tokens_of TOKEN_C (exec_ops ops st)) ∧
  fst (add c t (exec_ops ops st)) = Return tt ∧
  t ∈ tokens_of c (snd (add c t (exec_ops ops st))) ∧
  t ∈ tokens_of (other_class c) (snd (add c t (exec_ops ops st))).
Proof.
  intros Ha Hc Hin. split_and!.
  - by apply exec_ops_NoDup.
  - by apply exec_ops_NoDup.
  - apply add_returns_none.
  - apply add_then_member.
  - by rewrite add_tokens_other_class.
Qed.

Lemma token_classes_unique_within_not_across_witness :
  NoDup (tokens_of TOKEN_A (exec_ops [Remove TOKEN_A "emsp_token_a_67890"] initial)) ∧
  "cpo_token_c_abcdef" ∈
    tokens_of TOKEN_A
      (snd (add TOKEN_A "cpo_token_c_abcdef"
              (exec_ops [Remove TOKEN_A "emsp_token_a_67890"] initial))).
Proof.
  pose proof (token_classes_unique_within_not_across
                [Remove TOKEN_A "emsp_token_a_67890"] initial TOKEN_A
                "cpo_token_c_abcdef") as H.
  destruct H as (H1 & _ & _ & H4 & _).
  - apply (bool_decide_unpack _). vm_compute. exact I.
  - apply (bool_decide_unpack _). vm_compute. exact I.
  - apply (bool_decide_unpack _). vm_compute. exact I.
  - split; [exact H1|exact H4].
Defined.

(** C6, as stated, fails: [add_token_a] returns the same value for a token
    that is new and for one that is present, so its result does not tell
    whether the token was newly added. *)
Lemma add_result_does_not_tell_new :
  ("new_emsp_token_a_test" ∉ tokens_of TOKEN_A initial) ∧
  "emsp_token_a_12345" ∈ tokens_of TOKEN_A initial ∧
  fst (add TOKEN_A "new_emsp_token_a_test" initial)
    = fst (add TOKEN_A "emsp_token_a_12345" initial).
Proof.
  split_and!; [| |reflexivity];
    apply (bool_decide_unpack _); vm_compute; exact I.
Qed.

(** C6, amended: for every token class and token string, add never fails
    and returns nothing ([None]) whether or not the token was present;
    adding a token already present in that class's list leaves both lists
    unchanged; adding twice gives the lists that adding once gives; what
    tells a new token from a present one is the log record alone, of level
    INFO for a new token and WARNING for a present one. *)
Theorem add_idempotent_returns_none c t st :
  fst (add c t st) = Return tt ∧
  (t ∈ tokens_of c st ->
     ∀ c', tokens_of c' (snd (add c t st)) = tokens_of c' st) ∧
  (∀ c', tokens_of c' (snd (add c t (snd (add c t st))))
         = tokens_of c' (snd (add c t st))) ∧
  last_level (snd (add c t st))
    = Some (if bool_decide (t ∈ tokens_of c st) then WARNING else INFO).
Proof.
  assert (Hnoop : ∀ st0, t ∈ tokens_of c st0 ->
            ∀ c', tokens_of c' (snd (add c t st0)) = tokens_of c' st0).
  { intros st0 Hin c'. destruct (decide (c' = c)) as [->|Hne].
    - rewrite add_tokens_same_class. by rewrite bool_decide_eq_true_2.
    - replace c' with (other_class c) by (by destruct c, c').
      apply add_tokens_other_class. }
  split_and!.
  - apply add_returns_none.
  - apply Hnoop.
  - apply Hnoop, add_then_member.
  - apply add_last_level.
Qed.

Lemma add_idempotent_returns_none_witness :
  "emsp_token_a_12345" ∈ tokens_of TOKEN_A initial ∧
  ∀ c', tokens_of c' (snd (add TOKEN_A "emsp_token_a_12345" initial))
        = tokens_of c' initial.
Proof.
  assert (Hin : "emsp_token_a_12345" ∈ tokens_of TOKEN_A initial).
  { apply (bool_decide_unpack _). vm_compute. exact I. }
  split; [exact Hin|].
  exact (proj1 (proj2 (add_idempotent_returns_none
                         TOKEN_A "emsp_token_a_12345" initial)) Hin).
Defined.

(** C7, as stated, fails: once the empty string has been added to the
    Token-A list, [is_token_valid] reports the empty token valid. *)
Lemma empty_token_valid_once_added :
  fst (is_token_valid (Some "") (exec_ops [Add TOKEN_A ""] initial))
    = Return true.
Proof. reflexivity. Qed.

(** C7, amended: validate(token) returns true if and only if the token is
    present in the Token-A list or the Token-C list, by exact match; a
    null token is always invalid, and an empty token is invalid as long
    as the empty string is in neither list; for every token t added via
    add(A, t), validate(t) = true and classify(t) = TOKEN_A after any
    further operations that do not remove t from class A; validate and
    classify return normally, false and UNKNOWN, for a token in neither
    list. *)
Theorem validate_classify_contract st :
  (∀ t, fst (is_token_valid (Some t) st)
        = Return (bool_decide (t ∈ tokens_of TOKEN_A st ∨ t ∈ tokens_of TOKEN_C st))) ∧
  fst (is_token_valid None st) = Return false ∧
  ("" ∉ tokens_of TOKEN_A st -> "" ∉ tokens_of TOKEN_C st ->
     fst (is_token_valid (Some "") st) = Return false) ∧
  (∀ t ops, Remove TOKEN_A t ∉ ops ->
     fst (is_token_valid (Some t) (exec_ops ops (snd (add TOKEN_A t st))))
       = Return true ∧
     fst (get_token_info (Some t) (exec_ops ops (snd (add TOKEN_A t st))))
       = Return info_token_a) ∧
  (∀ token, token_in token (tokens_of TOKEN_A st) = false ->
     token_in token (tokens_of TOKEN_C st) = false ->
     fst (is_token_valid token st) = Return false ∧
     fst (get_token_info token st) = Return info_unknown).
Proof.
  split_and!.
  - intros t. rewrite is_token_valid_result. simpl.
    by rewrite bool_decide_or.
  - by rewrite is_token_valid_result.
  - intros Ha Hc. rewrite is_token_valid_result. simpl in *.
    by rewrite !bool_decide_eq_false_2.
  - intros t ops Hops.
    assert (Hin : t ∈ tokens_of TOKEN_A (exec_ops ops (snd (add TOKEN_A t st)))).
    { apply exec_ops_keeps; [done|]. apply add_then_member. }
    rewrite is_token_valid_result, get_token_info_result. simpl in *.
    by rewrite (bool_decide_eq_true_2 _ Hin).
  - intros token Ha Hc.
    rewrite is_token_valid_result, get_token_info_result. simpl in *.
    by rewrite Ha, Hc.
Qed.

Lemma validate_classify_contract_witness :
  fst (is_token_valid (Some "") initial) = Return false ∧
  fst (get_token_info (Some "new_emsp_token_a_test")
         (exec_ops [Add TOKEN_C "new_emsp_token_a_test";
                    Remove TOKEN_A "emsp_token_a_67890"]
            (snd (add TOKEN_A "new_emsp_token_a_test" initial))))
    = Return info_token_a ∧
  fst (get_token_info (Some " emsp_token_a_12345 ") initial)
    = Return info_unknown ∧
  fst (is_token_valid (Some " emsp_token_a_12345 ") initial) = Return false.
Proof.
  destruct (validate_classify_contract initial) as (_ & _ & H3 & H4 & H5).
  split_and!.
  - apply H3; apply (bool_decide_unpack _); vm_compute; exact I.
  - apply H4. apply (bool_decide_unpack _). vm_compute. exact I.
  - apply H5; reflexivity.
  - apply H5; reflexivity.
Defined.

(** C10: a token that is in the Token-A list and in the Token-C list is
    classified TOKEN_A, the Token-A list being consulted first, and is
    reported valid. *)
Theorem token_in_both_classes_is_token_a st t :
  t ∈ tokens_of TOKEN_A st ->
  t ∈ tokens_of TOKEN_C st ->
  fst (get_token_info (Some t) st) = Return info_token_a ∧
  fst (is_token_valid (Some t) st) = Return true.
Proof.
  intros Ha Hc.
  rewrite is_token_valid_result, get_token_info_result. simpl in *.
  by rewrite !bool_decide_eq_true_2.
Qed.

Lemma token_in_both_classes_is_token_a_witness :
  fst (get_token_info (Some "emsp_token_a_12345")
         (exec_ops [Add TOKEN_C "emsp_token_a_12345"] initial))
    = Return info_token_a ∧
  fst (is_token_valid (Some "emsp_token_a_12345")
         (exec_ops [Add TOKEN_C "emsp_token_a_12345"] initial))
    = Return true.
Proof.
  apply token_in_both_classes_is_token_a;
    apply (bool_decide_unpack _); vm_compute; exact I.
Defined.

End token_store.

(** ** Dictionaries in insertion order *)

Section odict_facts.
Context {V : Type}.
Implicit Types (d : odict V) (k : pykey) (v : V).

Lemma odict_get_set_eq k v d : odict_get k (odict_set k v d) = Some v.
Proof.
  induction d as [|[k' v'] d IH]; simpl.
  - by rewrite decide_True.
  - destruct (decide (k = k')) as [->|Hne]; simpl.
    + by rewrite decide_True.
    + by rewrite decide_False.
Qed.

Lemma odict_set_length_present k v v0 d :
  odict_get k d = Some v0 -> length (odict_set k v d) = length d.
Proof.
  induction d as [|[k' v'] d IH]; simpl; [done|].
  destruct (decide (k = k')); simpl; [done|].
  intros Hget. by rewrite IH.
Qed.

Lemma odict_get_elem_of k v d : odict_get k d = Some v -> (k, v) ∈ d.
Proof.
  induction d as [|[k' v'] d IH]; simpl; [done|].
  destruct (decide (k = k')) as [->|Hne].
  - intros [= ->]. apply list_elem_of_here.
  - intros Hget. apply list_elem_of_further. by apply IH.
Qed.

Lemma odict_set_Forall (P : pykey * V -> Prop) k v d :
  P (k, v) -> Forall P d -> Forall P (odict_set k v d).
Proof.
  intros HP. induction 1 as [|[k' v'] d Hx Hd IH]; simpl.
  - by constructor.
  - destruct (decide (k = k')); constructor; done.
Qed.

Lemma odict_del_Forall (P : pykey * V -> Prop) k d :
  Forall P d -> Forall P (odict_del k d).
Proof.
  induction 1 as [|[k' v'] d Hx Hd IH]; simpl; [constructor|].
  destruct (decide (k = k')); [done|by constructor].
Qed.

Lemma odict_values_length d : length (odict_values d) = length d.
Proof. unfold odict_values. by rewrite length_fmap. Qed.
End odict_facts.

(** ** Slices *)

Lemma py_slice_length {A} (l : list A) (start stop : Z) :
  (0 ≤ start)%Z -> (0 ≤ stop)%Z ->
  Z.of_nat (length (py_slice l start stop))
    = Z.max 0 (Z.min stop (Z.of_nat (length l)) - Z.min start (Z.of_nat (length l))).
Proof.
  intros Hs He. unfold py_slice, slice_index.
  rewrite length_take, length_drop.
  destruct (Z.ltb_spec start 0), (Z.ltb_spec stop 0); lia.
Qed.

(** ** Keys *)

Lemma key_of_truthy v k :
  key_of v = Some k -> truthy v = truthy_key k.
Proof. destruct v as [|[]| | | |]; intros [= <-]; done. Qed.

Lemma py_or_truthy x y : truthy y = true -> truthy (py_or x y) = true.
Proof. intros Hy. unfold py_or. by destruct (truthy x) eqn:Hx. Qed.

Lemma truthy_uuid (uuid4 : string) : uuid4 ≠ "" -> truthy (PStr uuid4) = true.
Proof. intros Hne. simpl. by apply negb_true_iff, String.eqb_neq. Qed.

(** ** The storage invariant *)

Lemma storage_inv_init : storage_inv EMSPCrud._storage.
Proof. intros module. exists []. by destruct module. Qed.

Lemma storage_inv_set st module (d : odict EMSPCrud.object) :
  storage_inv st ->
  Forall (λ kv, truthy_key kv.1 = true) d ->
  storage_inv (<[EMSPCrud._get_storage_key module := d]> st).
Proof.
  intros Hinv Hd m.
  destruct (decide (EMSPCrud._get_storage_key module = EMSPCrud._get_storage_key m))
    as [Heq|Hne].
  - exists d. by rewrite <- Heq, lookup_insert_eq.
  - destruct (Hinv m) as (d' & Hd' & HF). exists d'.
    by rewrite lookup_insert_ne.
Qed.

Lemma storage_inv_lookup st module :
  storage_inv st ->
  st !! EMSPCrud._get_storage_key module = Some (module_objects module st) ∧
  Forall (λ kv, truthy_key kv.1 = true) (module_objects module st).
Proof.
  intros Hinv. destruct (Hinv module) as (d & Hd & HF).
  unfold module_objects. by rewrite Hd.
Qed.

Lemma create_storage_inv module role data uuid4 now st :
  storage_inv st -> uuid4 ≠ "" ->
  storage_inv (snd (EMSPCrud.create module role data uuid4 now st)).
Proof.
  intros Hinv Hu. destruct (storage_inv_lookup st module Hinv) as [Hd HF].
  run_crud. rewrite Hd.
  destruct (key_of _) as [k|] eqn:Hk; simpl; [|done].
  apply storage_inv_set; [done|].
  apply odict_set_Forall; [|done]. simpl.
  rewrite <- (key_of_truthy _ _ Hk). by apply py_or_truthy, truthy_uuid.
Qed.

Lemma update_storage_inv module role data id now st :
  storage_inv st ->
  storage_inv (snd (EMSPCrud.update module role data id now st)).
Proof.
  intros Hinv. destruct (storage_inv_lookup st module Hinv) as [Hd HF].
  run_crud. rewrite Hd.
  destruct (odict_get _ _) as [old|] eqn:Hold; simpl; [|done].
  apply storage_inv_set; [done|].
  apply odict_set_Forall; [|done].
  apply odict_get_elem_of in Hold.
  by apply (proj1 (Forall_forall _ _) HF _ Hold).
Qed.

Lemma delete_storage_inv module role id st :
  storage_inv st ->
  storage_inv (snd (EMSPCrud.delete module role id st)).
Proof.
  intros Hinv. destruct (storage_inv_lookup st module Hinv) as [Hd HF].
  run_crud. rewrite Hd.
  destruct (odict_get _ _) as [old|] eqn:Hold; simpl; [|done].
  apply storage_inv_set; [done|]. by apply odict_del_Forall.
Qed.

Lemma reachable_storage_inv st : reachable st -> storage_inv st.
Proof.
  induction 1 as [|st module role data uuid4 now _ IH Hu
                  |st module role data id now _ IH
                  |st module role id _ IH].
  - apply storage_inv_init.
  - by apply create_storage_inv.
  - by apply update_storage_inv.
  - by apply delete_storage_inv.
Qed.

(** ** What each method of [EMSPCrud] computes *)

Section crud_results.
Import EMSPCrud.
Implicit Types (st : state) (module : ModuleID) (role : RoleEnum).

Lemma get_result module role id st :
  storage_inv st ->
  get module role id st =
    (match odict_get (KStr id) (module_objects module st) with
     | Some data => Return data
     | None => Raise NotFoundOCPIError
     end, st).
Proof.
  intros Hinv. destruct (storage_inv_lookup st module Hinv) as [Hd _].
  run_crud. rewrite Hd. by destruct (odict_get _ _).
Qed.

Lemma list_result module role filters st offset limit :
  storage_inv st ->
  as_int (dict_get filters "offset" (PInt 0)) = Some offset ->
  as_int (dict_get filters "limit" (PInt 50)) = Some limit ->
  let total_count := Z.of_nat (length (module_objects module st)) in
  let end_idx := Z.min (offset + limit) total_count in
  list_ module role filters st =
    (Return (py_slice (odict_values (module_objects module st)) offset end_idx,
             total_count, (end_idx >=? total_count)%Z), st).
Proof.
  intros Hinv Ho Hl. destruct (storage_inv_lookup st module Hinv) as [Hd _].
  run_crud. rewrite Hd, Ho, Hl. by rewrite odict_values_length.
Qed.

Lemma list_filters_agree module role filters filters' st :
  filters' !! "offset" = filters !! "offset" ->
  filters' !! "limit" = filters !! "limit" ->
  list_ module role filters' st = list_ module role filters st.
Proof.
  intros Ho Hl. unfold list_, dict_get. by rewrite Ho, Hl.
Qed.

Lemma module_objects_set module (d : odict object) st :
  module_objects module (<[_get_storage_key module := d]> st) = d.
Proof. unfold module_objects. by rewrite lookup_insert_eq. Qed.

End crud_results.

(** ** ModuleStore claims *)

Section module_store.
Import EMSPCrud.
Implicit Types (st : state) (module : ModuleID) (role : RoleEnum).

(** C4: for every module and every list call with non-negative integer
    offset and limit, [list] returns at most limit items, behaves without
    a limit as with limit 50, returns as total_count the number of objects
    stored for the module, and returns is_last_page true if and only if
    offset plus the number of returned items is at least total_count. *)
Theorem list_pagination module role filters st offset limit :
  reachable st ->
  as_int (dict_get filters "offset" (PInt 0)) = Some offset ->
  as_int (dict_get filters "limit" (PInt 50)) = Some limit ->
  (0 ≤ offset)%Z -> (0 ≤ limit)%Z ->
  ∃ items is_last_page,
    list_ module role filters st
      = (Return (items, Z.of_nat (length (module_objects module st)),
                 is_last_page), st) ∧
    (Z.of_nat (length items) ≤ limit)%Z ∧
    (is_last_page = true ↔
       (Z.of_nat (length (module_objects module st))
          ≤ offset + Z.of_nat (length items))%Z) ∧
    (filters !! "limit" = None ->
       list_ module role filters st
         = list_ module role (<["limit" := PInt 50]> filters) st).
Proof.
  intros Hreach Ho Hl Hoff Hlim.
  apply reachable_storage_inv in Hreach.
  eexists _, _. split; [by apply list_result|].
  set (n := Z.of_nat (length (module_objects module st))).
  assert (Hlen := py_slice_length (odict_values (module_objects module st))
                    offset (Z.min (offset + limit) n) Hoff ltac:(lia)).
  rewrite odict_values_length in Hlen. fold n in Hlen.
  split_and!.
  - lia.
  - rewrite Z.geb_le. lia.
  - intros Hnone. unfold list_, dict_get.
    by rewrite lookup_insert_eq, lookup_insert_ne, Hnone.
Qed.

Lemma list_pagination_witness :
  ∃ items is_last_page,
    list_ locations emsp {[ "offset" := PInt 0 ]} sample_storage
      = (Return (items, 1%Z, is_last_page), sample_storage) ∧
    (Z.of_nat (length items) ≤ 50)%Z ∧
    (is_last_page = true ↔ (1 ≤ 0 + Z.of_nat (length items))%Z) ∧
    list_ locations emsp {[ "offset" := PInt 0 ]} sample_storage
      = list_ locations emsp
          (<["limit" := PInt 50]> {[ "offset" := PInt 0 ]}) sample_storage.
Proof.
  destruct (list_pagination locations emsp {[ "offset" := PInt 0 ]}
              sample_storage 0 50) as (items & last & H1 & H2 & H3 & H4).
  - apply reachable_create; [apply reachable_init|done].
  - reflexivity.
  - reflexivity.
  - lia.
  - lia.
  - exists items, last. split_and!; [exact H1|exact H2|exact H3|].
    apply H4. reflexivity.
Defined.

(** C5, as stated, fails: with a window that lies in 2023, [list] returns
    and counts the one stored location, last updated in 2020. *)
Lemma list_returns_object_outside_window :
  fst (list_ locations emsp sample_window sample_storage)
    = Return ([sample_stored_location], 1%Z, true) ∧
  sample_stored_location !! "last_updated"
    = Some (PStr "2020-06-01T00:00:00+00:00") ∧
  spec_in_window sample_window sample_stored_location = false.
Proof. split_and!; vm_compute; reflexivity. Qed.

(** C5, amended: for every list call, date_from and date_to have no
    effect: the call returns the items, total_count and is_last_page of
    the same call without them, so an item whose last_updated lies outside
    the requested window is returned and counted like any other. *)
Theorem list_ignores_date_filters module role filters date_from date_to st :
  list_ module role (<["date_from" := date_from]> filters) st
    = list_ module role filters st ∧
  list_ module role (<["date_to" := date_to]> filters) st
    = list_ module role filters st ∧
  list_ module role
      (<["date_from" := date_from]> (<["date_to" := date_to]> filters)) st
    = list_ module role filters st.
Proof.
  split_and!; apply list_filters_agree; by rewrite ?lookup_insert_ne.
Qed.

(** C8: for every stored object and every update(module, id, partial)
    call, the fields of the stored object that are not in partial keep
    their values, the fields in partial take the supplied values,
    last_updated is set to the time of the call, and the call fails with
    NotFound, changing nothing, when the module holds no object with
    that id. *)
Theorem update_partial_merge module role data id now st :
  reachable st ->
  match odict_get (KStr id) (module_objects module st) with
  | None =>
      update module role data id now st = (Raise NotFoundOCPIError, st)
  | Some old =>
      ∃ new st',
        update module role data id now st = (Return new, st') ∧
        fst (get module role id st') = Return new ∧
        new !! "last_updated" = Some (PStr now) ∧
        (∀ k, k ≠ "last_updated" -> data !! k = None -> new !! k = old !! k) ∧
        (∀ k v, k ≠ "last_updated" -> data !! k = Some v -> new !! k = Some v)
  end.
Proof.
  intros Hreach. apply reachable_storage_inv in Hreach as Hinv.
  destruct (storage_inv_lookup st module Hinv) as [Hd _].
  destruct (odict_get _ _) as [old|] eqn:Hold.
  - eexists _, _. split_and!.
    + run_crud. rewrite Hd, Hold. reflexivity.
    + rewrite get_result.
      * by rewrite module_objects_set, odict_get_set_eq.
      * apply (update_storage_inv module role data id now) in Hinv.
        revert Hinv. run_crud. by rewrite Hd, Hold.
    + by rewrite lookup_insert_eq.
    + intros k Hk Hnone. rewrite lookup_insert_ne by done.
      rewrite lookup_union_r; done.
    + intros k v Hk Hsome. rewrite lookup_insert_ne by done.
      by apply lookup_union_Some_l.
  - run_crud. by rewrite Hd, Hold.
Qed.

Lemma update_partial_merge_witness :
  (∃ new st',
     update locations emsp {[ "name" := PStr "Station 1b" ]} "LOC001"
       "2024-02-03T04:05:06+00:00" sample_storage = (Return new, st') ∧
     new !! "last_updated" = Some (PStr "2024-02-03T04:05:06+00:00") ∧
     new !! "city" = Some (PStr "Amsterdam") ∧
     new !! "name" = Some (PStr "Station 1b")) ∧
  update locations emsp {[ "name" := PStr "Station 1b" ]} "LOC404"
    "2024-02-03T04:05:06+00:00" sample_storage
    = (Raise NotFoundOCPIError, sample_storage).
Proof.
  assert (Hreach : reachable sample_storage).
  { apply reachable_create; [apply reachable_init|done]. }
  split.
  - destruct (update_partial_merge locations emsp
                {[ "name" := PStr "Station 1b" ]} "LOC001"
                "2024-02-03T04:05:06+00:00" sample_storage Hreach)
      as (new & st' & H1 & _ & H3 & H4 & H5).
    exists new, st'. split_and!; [exact H1|exact H3| |].
    + rewrite (H4 "city"); [reflexivity|done|reflexivity].
    + apply H5; [done|reflexivity].
  - exact (update_partial_merge locations emsp
             {[ "name" := PStr "Station 1b" ]} "LOC404"
             "2024-02-03T04:05:06+00:00" sample_storage Hreach).
Defined.

(** C9: for every module, create called with data whose id is the id of
    an object already stored returns normally, with no conflict or
    duplicate-id error, and puts the new data, with its id and the time
    of the call as last_updated, in the place of the stored object: the
    module holds as many objects as before and a following get for that
    id returns the new data. *)
Theorem create_replaces_stored module role data uuid4 now st id old :
  reachable st ->
  data !! "id" = Some (PStr id) ->
  odict_get (KStr id) (module_objects module st) = Some old ->
  ∃ st',
    create module role data uuid4 now st
      = (Return (<["last_updated" := PStr now]> data), st') ∧
    fst (get module role id st')
      = Return (<["last_updated" := PStr now]> data) ∧
    length (module_objects module st') = length (module_objects module st).
Proof.
  intros Hreach Hid Hold. apply reachable_storage_inv in Hreach as Hinv.
  destruct (storage_inv_lookup st module Hinv) as [Hd HF].
  assert (Htruthy : truthy (PStr id) = true).
  { apply odict_get_elem_of in Hold.
    apply (proj1 (Forall_forall _ _) HF _ Hold). }
  assert (Hor : py_or (dict_get data "id" PNone) (PStr uuid4) = PStr id).
  { unfold dict_get, py_or. rewrite Hid. simpl in *. by rewrite Htruthy. }
  assert (Hdata : <["id" := PStr id]> data = data) by (by apply insert_id).
  assert (Hcreate : create module role data uuid4 now st
            = (Return (<["last_updated" := PStr now]> data),
               <[_get_storage_key module :=
                   odict_set (KStr id) (<["last_updated" := PStr now]> data)
                     (module_objects module st)]> st)).
  { run_crud. rewrite Hd, Hor, Hdata. reflexivity. }
  eexists. split_and!; [exact Hcreate| |].
  - rewrite get_result.
    + by rewrite module_objects_set, odict_get_set_eq.
    + apply storage_inv_set; [done|]. by apply odict_set_Forall.
  - rewrite module_objects_set. by eapply odict_set_length_present.
Qed.

Lemma create_replaces_stored_witness :
  ∃ st',
    create locations emsp {[ "id" := PStr "LOC001"; "name" := PStr "Other" ]}
      "9a8b7c6d-5e4f-4a3b-8c2d-1e0f9a8b7c6d" "2024-02-03T04:05:06+00:00"
      sample_storage
      = (Return (<["last_updated" := PStr "2024-02-03T04:05:06+00:00"]>
                   {[ "id" := PStr "LOC001"; "name" := PStr "Other" ]}), st') ∧
    fst (get locations emsp "LOC001" st')
      = Return (<["last_updated" := PStr "2024-02-03T04:05:06+00:00"]>
                  {[ "id" := PStr "LOC001"; "name" := PStr "Other" ]}) ∧
    length (module_objects locations st') = 1.
Proof.
  apply (create_replaces_stored locations emsp
           {[ "id" := PStr "LOC001"; "name" := PStr "Other" ]} _ _
           sample_storage "LOC001" sample_stored_location).
  - apply reachable_create; [apply reachable_init|done].
  - reflexivity.
  - vm_compute. reflexivity.
Defined.
End module_store.

(** ** CommandDispatcher and AuthorizationEngine claims *)

Section actions.
Import EMSPCrud.
Implicit Types (st : state) (module : ModuleID) (role : option RoleEnum).

(** C1, as stated, fails: the command of [test_command_error_handling],
    whose location_id, evse_uid and connector_id are empty, is not
    rejected: [do] returns the accepting result, and that result carries
    no command id. *)
Lemma send_accepts_invalid_payload :
  spec_valid_payload (Some invalid_command) = false ∧
  fst (do sample_action_value commands (Some emsp) send_command
         (Some invalid_command) ∅
         "3f2b8c1e-7d4a-4e0b-9c55-0a1b2c3d4e5f" _storage)
    = Return (PDict command_accepted) ∧
  command_accepted !! "result" = Some (PStr "ACCEPTED") ∧
  command_accepted !! "commandId" = None ∧
  command_accepted !! "command_id" = None.
Proof. split_and!; reflexivity. Qed.

(** C1, amended: for every command send request, the dispatcher does not
    inspect the payload and rejects none: whatever the payload, it returns
    normally, leaves the storage as it was, and its result holds exactly
    result = ACCEPTED, timeout = 30 (the value of COMMAND_AWAIT_TIME) and
    a fixed message; the command id it generates is not part of the
    result. *)
Theorem send_command_accepts_unvalidated action_value module role data kwargs
    uuid4 st :
  do action_value module role send_command data kwargs uuid4 st
    = (Return (PDict command_accepted), st) ∧
  command_accepted !! "result" = Some (PStr "ACCEPTED") ∧
  command_accepted !! "timeout" = Some (PInt EMSPSettings.COMMAND_AWAIT_TIME) ∧
  dom command_accepted = {[ "result"; "timeout"; "message" ]}.
Proof.
  split_and!; reflexivity.
Qed.

(** C2, as stated, fails: a token that the token store reports invalid is
    allowed, and for a token that the store reports valid the decision
    carries no authorization_reference. *)
Lemma authorize_allows_invalid_token :
  fst (ClientAuthenticator.is_token_valid (Some "invalid_token_xyz")
         ClientAuthenticator.initial) = Return false ∧
  (∃ d, fst (do sample_action_value tokens (Some emsp) authorize_token None
               {[ "token" := PStr "invalid_token_xyz" ]}
               "3f2b8c1e-7d4a-4e0b-9c55-0a1b2c3d4e5f" _storage)
          = Return (PDict d) ∧
        d !! "allowed" = Some (PStr "ALLOWED")) ∧
  fst (ClientAuthenticator.is_token_valid (Some "emsp_token_a_12345")
         ClientAuthenticator.initial) = Return true ∧
  (∃ d, fst (do sample_action_value tokens (Some emsp) authorize_token None
               {[ "token" := PStr "emsp_token_a_12345" ]}
               "3f2b8c1e-7d4a-4e0b-9c55-0a1b2c3d4e5f" _storage)
          = Return (PDict d) ∧
        d !! "authorization_reference" = None).
Proof.
  split_and!; [reflexivity| |reflexivity|];
    (eexists; split; [reflexivity|reflexivity]).
Qed.

(** C2, amended: for every authorize request, whether or not the supplied
    token is valid per the token store, which is not consulted, the
    returned decision has allowed = ALLOWED, repeated in its
    authorization_info next to the token of the request (the string
    unknown when none is given) and the location of the request (None
    when none is given), and holds no authorization_reference: the
    decision has the two fields allowed and authorization_info, and the
    authorization_info the three fields allowed, token and location. *)
Theorem authorize_always_allowed action_value module role data kwargs uuid4 st :
  ∃ d info,
    do action_value module role authorize_token data kwargs uuid4 st
      = (Return (PDict d), st) ∧
    d !! "allowed" = Some (PStr "ALLOWED") ∧
    d !! "authorization_info" = Some (PDict info) ∧
    info !! "allowed" = Some (PStr "ALLOWED") ∧
    info !! "token" = Some (dict_get kwargs "token" (PStr "unknown")) ∧
    info !! "location" = Some (dict_get kwargs "location" PNone) ∧
    d !! "authorization_reference" = None ∧
    info !! "authorization_reference" = None ∧
    dom d = {[ "allowed"; "authorization_info" ]} ∧
    dom info = {[ "allowed"; "token"; "location" ]}.
Proof. eexists _, _. split_and!; reflexivity. Qed.

End actions.

(** * Further properties *)

(** ** More on dictionaries in insertion order *)

Section odict_more.
Context {V : Type}.
Implicit Types (d : odict V) (k : pykey) (v : V).

Lemma odict_get_None k d : odict_get k d = None ↔ k ∉ d.*1.
Proof.
  induction d as [|[k' v'] d IH]; csimpl.
  - split; [intros _; apply not_elem_of_nil|done].
  - rewrite not_elem_of_cons. destruct (decide (k = k')) as [->|Hne].
    + split; [done|]. by intros [? _].
    + rewrite IH. split; [by intros ?|by intros [_ ?]].
Qed.

Lemma odict_get_set_ne k k' v d :
  k ≠ k' -> odict_get k' (odict_set k v d) = odict_get k' d.
Proof.
  intros Hne. induction d as [|[k0 v0] d IH]; csimpl.
  - by rewrite decide_False.
  - destruct (decide (k = k0)) as [->|Hk]; csimpl.
    + by rewrite !decide_False.
    + destruct (decide (k' = k0)); [done|apply IH].
Qed.

Lemma odict_set_keys_present k v v0 d :
  odict_get k d = Some v0 -> (odict_set k v d).*1 = d.*1.
Proof.
  induction d as [|[k' v'] d IH]; csimpl; [done|].
  destruct (decide (k = k')) as [->|Hne]; csimpl; [done|].
  intros Hget. by rewrite IH.
Qed.

Lemma odict_set_absent k v d :
  odict_get k d = None -> odict_set k v d = (d ++ [(k, v)])%list.
Proof.
  induction d as [|[k' v'] d IH]; csimpl; [done|].
  destruct (decide (k = k')); [done|].
  intros Hget. by rewrite IH.
Qed.

Lemma odict_set_NoDup k v d : NoDup d.*1 -> NoDup (odict_set k v d).*1.
Proof.
  intros Hnd. destruct (odict_get k d) as [v0|] eqn:Hget.
  - by rewrite (odict_set_keys_present _ _ _ _ Hget).
  - rewrite (odict_set_absent _ _ _ Hget), fmap_app. csimpl.
    apply NoDup_app. split_and!; [done| |apply NoDup_singleton].
    intros x Hx ->%list_elem_of_singleton. by apply odict_get_None in Hget.
Qed.

Lemma odict_del_absent k d : odict_get k d = None -> odict_del k d = d.
Proof.
  induction d as [|[k' v'] d IH]; csimpl; [done|].
  destruct (decide (k = k')); [done|].
  intros Hget. by rewrite IH.
Qed.

Lemma odict_del_keys_elem_of k k' d : k' ∈ (odict_del k d).*1 -> k' ∈ d.*1.
Proof.
  induction d as [|[k0 v0] d IH]; csimpl; [done|].
  destruct (decide (k = k0)); csimpl.
  - apply list_elem_of_further.
  - rewrite !elem_of_cons. intros [->|Hin]; [by left|right; by apply IH].
Qed.

Lemma odict_del_NoDup k d : NoDup d.*1 -> NoDup (odict_del k d).*1.
Proof.
  induction d as [|[k0 v0] d IH]; csimpl; [done|].
  rewrite NoDup_cons. intros [Hk0 Hd].
  destruct (decide (k = k0)); csimpl; [done|].
  apply NoDup_cons. split; [|by apply IH].
  intros Hin. by apply Hk0, (odict_del_keys_elem_of k).
Qed.

Lemma odict_get_del_eq k d : NoDup d.*1 -> odict_get k (odict_del k d) = None.
Proof.
  induction d as [|[k0 v0] d IH]; csimpl; [done|].
  rewrite NoDup_cons. intros [Hk0 Hd].
  destruct (decide (k = k0)) as [->|Hne]; csimpl.
  - by apply odict_get_None.
  - rewrite decide_False by done. by apply IH.
Qed.

Lemma odict_get_del_ne k k' d :
  k ≠ k' -> odict_get k' (odict_del k d) = odict_get k' d.
Proof.
  intros Hne. induction d as [|[k0 v0] d IH]; csimpl; [done|].
  destruct (decide (k = k0)) as [->|Hk]; csimpl.
  - by rewrite decide_False.
  - destruct (decide (k' = k0)); [done|apply IH].
Qed.

Lemma odict_del_length k v d :
  odict_get k d = Some v -> S (length (odict_del k d)) = length d.
Proof.
  induction d as [|[k0 v0] d IH]; csimpl; [done|].
  destruct (decide (k = k0)); csimpl; [done|].
  intros Hget. by rewrite IH.
Qed.
End odict_more.

(** ** The storage after a writing method *)

Section crud_states.
Import EMSPCrud.
Implicit Types (st : state) (module : ModuleID) (role : RoleEnum).

Lemma _get_storage_key_inj module module' :
  _get_storage_key module = _get_storage_key module' -> module = module'.
Proof. by destruct module, module'. Qed.

Lemma module_objects_set_ne module module' (d : odict object) st :
  module ≠ module' ->
  module_objects module' (<[_get_storage_key module := d]> st)
    = module_objects module' st.
Proof.
  intros Hne. unfold module_objects. rewrite lookup_insert_ne; [done|].
  intros Heq. by apply Hne, _get_storage_key_inj.
Qed.

Lemma get_lookup module role id st d :
  st !! _get_storage_key module = Some d ->
  get module role id st =
    (match odict_get (KStr id) d with
     | Some data => Return data
     | None => Raise NotFoundOCPIError
     end, st).
Proof. intros Hd. run_crud. rewrite Hd. by destruct (odict_get _ _). Qed.

Lemma create_state module role data uuid4 now st :
  storage_inv st ->
  let object_id := py_or (dict_get data "id" PNone) (PStr uuid4) in
  let new := <["last_updated" := PStr now]> (<["id" := object_id]> data) in
  create module role data uuid4 now st =
    match key_of object_id with
    | Some k =>
        (Return new,
         <[_get_storage_key module := odict_set k new (module_objects module st)]> st)
    | None => (Raise TypeError, st)
    end.
Proof.
  intros Hinv. destruct (storage_inv_lookup st module Hinv) as [Hd _].
  run_crud. rewrite Hd. by destruct (key_of _).
Qed.

Lemma update_state module role data id now st :
  storage_inv st ->
  update module role data id now st =
    match odict_get (KStr id) (module_objects module st) with
    | Some old =>
        let new := <["last_updated" := PStr now]> (data ∪ old) in
        (Return new,
         <[_get_storage_key module :=
             odict_set (KStr id) new (module_objects module st)]> st)
    | None => (Raise NotFoundOCPIError, st)
    end.
Proof.
  intros Hinv. destruct (storage_inv_lookup st module Hinv) as [Hd _].
  run_crud. rewrite Hd. by destruct (odict_get _ _).
Qed.

Lemma delete_state module role id st :
  storage_inv st ->
  delete module role id st =
    match odict_get (KStr id) (module_objects module st) with
    | Some old =>
        (Return tt,
         <[_get_storage_key module :=
             odict_del (KStr id) (module_objects module st)]> st)
    | None => (Raise NotFoundOCPIError, st)
    end.
Proof.
  intros Hinv. destruct (storage_inv_lookup st module Hinv) as [Hd _].
  run_crud. rewrite Hd. by destruct (odict_get _ _).
Qed.

(** A property of the dictionary of every module holds in every reachable
    storage once it holds of the empty dictionary and each writing method
    keeps it. *)
Lemma reachable_objects_ind (P : odict object -> Prop) :
  P [] ->
  (∀ d k data id now, P d -> truthy id = true -> key_of id = Some k ->
     P (odict_set k (<["last_updated" := PStr now]> (<["id" := id]> data)) d)) ->
  (∀ d id old data now, P d -> odict_get (KStr id) d = Some old ->
     P (odict_set (KStr id) (<["last_updated" := PStr now]> (data ∪ old)) d)) ->
  (∀ d id, P d -> P (odict_del (KStr id) d)) ->
  ∀ st, reachable st -> ∀ module, P (module_objects module st).
Proof.
  intros Hnil Hcreate Hupdate Hdelete st Hreach.
  induction Hreach as [|st m role data uuid4 now Hreach IH Hu
                       |st m role data id now Hreach IH
                       |st m role id Hreach IH]; intros module.
  - by destruct module.
  - apply reachable_storage_inv in Hreach.
    rewrite (create_state _ _ _ _ _ _ Hreach). cbv zeta.
    destruct (key_of _) as [k|] eqn:Hk; simpl; [|apply IH].
    destruct (decide (m = module)) as [->|Hne].
    + rewrite module_objects_set. apply Hcreate; [apply IH| |done].
      by apply py_or_truthy, truthy_uuid.
    + rewrite module_objects_set_ne by done. apply IH.
  - apply reachable_storage_inv in Hreach.
    rewrite (update_state _ _ _ _ _ _ Hreach).
    destruct (odict_get _ _) as [old|] eqn:Hold; simpl; [|apply IH].
    destruct (decide (m = module)) as [->|Hne].
    + rewrite module_objects_set. by apply Hupdate.
    + rewrite module_objects_set_ne by done. apply IH.
  - apply reachable_storage_inv in Hreach.
    rewrite (delete_state _ _ _ _ Hreach).
    destruct (odict_get _ _) as [old|] eqn:Hold; simpl; [|apply IH].
    destruct (decide (m = module)) as [->|Hne].
    + rewrite module_objects_set. by apply Hdelete.
    + rewrite module_objects_set_ne by done. apply IH.
Qed.

Lemma reachable_keys_NoDup st module :
  reachable st -> NoDup (module_objects module st).*1.
Proof.
  intros Hreach. revert module.
  apply (reachable_objects_ind (λ d, NoDup d.*1)); try done.
  - constructor.
  - intros. by apply odict_set_NoDup.
  - intros. by apply odict_set_NoDup.
  - intros. by apply odict_del_NoDup.
Qed.

Lemma reachable_lookup st module :
  reachable st ->
  st !! _get_storage_key module = Some (module_objects module st).
Proof.
  intros Hreach. by apply storage_inv_lookup, reachable_storage_inv.
Qed.
End crud_states.

(** ** ModuleStore: round trips, frames and invariants *)

Section module_store_more.
Import EMSPCrud.
Implicit Types (st : state) (module : ModuleID) (role : RoleEnum).

(** X1: create followed by get is a round trip.  Whether the id is the one
    supplied in the data or, the data holding none or a falsy one, the
    generated uuid, create returns the data with that id and with the time
    of the call as last_updated, every other field as supplied, and a
    following get for that id returns the same object. *)
Theorem create_then_get module role data uuid4 now st id :
  reachable st ->
  py_or (dict_get data "id" PNone) (PStr uuid4) = PStr id ->
  ∃ new st',
    create module role data uuid4 now st = (Return new, st') ∧
    fst (get module role id st') = Return new ∧
    new !! "id" = Some (PStr id) ∧
    new !! "last_updated" = Some (PStr now) ∧
    (∀ k, k ≠ "id" -> k ≠ "last_updated" -> new !! k = data !! k).
Proof.
  intros Hreach Hid. apply reachable_storage_inv in Hreach as Hinv.
  eexists _, _. split_and!.
  - rewrite (create_state _ _ _ _ _ _ Hinv). cbv zeta. rewrite Hid. reflexivity.
  - erewrite get_lookup by apply lookup_insert_eq.
    by rewrite odict_get_set_eq.
  - rewrite lookup_insert_ne by done. apply lookup_insert_eq.
  - apply lookup_insert_eq.
  - intros k Hk1 Hk2. by rewrite !lookup_insert_ne.
Qed.

Lemma create_then_get_witness :
  ∃ new st',
    create tariffs emsp {[ "currency" := PStr "EUR" ]}
      "9a8b7c6d-5e4f-4a3b-8c2d-1e0f9a8b7c6d" "2024-02-03T04:05:06+00:00"
      sample_storage = (Return new, st') ∧
    fst (get tariffs emsp "9a8b7c6d-5e4f-4a3b-8c2d-1e0f9a8b7c6d" st')
      = Return new ∧
    new !! "currency" = Some (PStr "EUR").
Proof.
  destruct (create_then_get tariffs emsp {[ "currency" := PStr "EUR" ]}
              "9a8b7c6d-5e4f-4a3b-8c2d-1e0f9a8b7c6d"
              "2024-02-03T04:05:06+00:00" sample_storage
              "9a8b7c6d-5e4f-4a3b-8c2d-1e0f9a8b7c6d")
    as (new & st' & H1 & H2 & _ & _ & H5).
  - apply reachable_create; [apply reachable_init|done].
  - reflexivity.
  - exists new, st'. split_and!; [exact H1|exact H2|].
    rewrite H5; [reflexivity|done|done].
Defined.

(** X2: create called with data that hold no id, or a falsy one (None, the
    empty string, 0), stores the object under the generated uuid: the
    object returned has the uuid as its id and a following get for the uuid
    returns it; when the module stored nothing under that uuid, its ids
    afterwards are the ids it held before, in their order, followed by
    the uuid. *)
Theorem create_generates_id module role data uuid4 now st :
  reachable st ->
  truthy (dict_get data "id" PNone) = false ->
  odict_get (KStr uuid4) (module_objects module st) = None ->
  ∃ new st',
    create module role data uuid4 now st = (Return new, st') ∧
    new !! "id" = Some (PStr uuid4) ∧
    fst (get module role uuid4 st') = Return new ∧
    (module_objects module st').*1
      = ((module_objects module st).*1 ++ [KStr uuid4])%list.
Proof.
  intros Hreach Hfalsy Hfresh. apply reachable_storage_inv in Hreach as Hinv.
  assert (Hid : py_or (dict_get data "id" PNone) (PStr uuid4) = PStr uuid4).
  { unfold py_or. by rewrite Hfalsy. }
  eexists _, _. split_and!.
  - rewrite (create_state _ _ _ _ _ _ Hinv). cbv zeta. rewrite Hid. reflexivity.
  - rewrite lookup_insert_ne by done. apply lookup_insert_eq.
  - erewrite get_lookup by apply lookup_insert_eq.
    by rewrite odict_get_set_eq.
  - rewrite module_objects_set, (odict_set_absent _ _ _ Hfresh), fmap_app.
    reflexivity.
Qed.

Lemma create_generates_id_witness :
  ∃ new st',
    create locations emsp {[ "id" := PStr ""; "name" := PStr "Station 2" ]}
      "9a8b7c6d-5e4f-4a3b-8c2d-1e0f9a8b7c6d" "2024-02-03T04:05:06+00:00"
      sample_storage = (Return new, st') ∧
    new !! "id" = Some (PStr "9a8b7c6d-5e4f-4a3b-8c2d-1e0f9a8b7c6d") ∧
    fst (get locations emsp "9a8b7c6d-5e4f-4a3b-8c2d-1e0f9a8b7c6d" st')
      = Return new ∧
    (module_objects locations st').*1
      = [KStr "LOC001"; KStr "9a8b7c6d-5e4f-4a3b-8c2d-1e0f9a8b7c6d"].
Proof.
  apply (create_generates_id locations emsp
           {[ "id" := PStr ""; "name" := PStr "Station 2" ]}
           "9a8b7c6d-5e4f-4a3b-8c2d-1e0f9a8b7c6d" "2024-02-03T04:05:06+00:00"
           sample_storage).
  - apply reachable_create; [apply reachable_init|done].
  - reflexivity.
  - reflexivity.
Defined.

(** Which ids the modules hold after a write to one module. *)
Lemma set_objects_frame module role (d : odict object) st (k : pykey) :
  reachable st ->
  (∀ k', k' ≠ k ->
     is_Some (odict_get k' d)
     ↔ is_Some (odict_get k' (module_objects module st))) ->
  let st' := <[_get_storage_key module := d]> st in
  (∀ module', module' ≠ module ->
     (module_objects module' st').*1 = (module_objects module' st).*1) ∧
  (∀ id', KStr id' ≠ k ->
     fst (get module role id' st') = Raise NotFoundOCPIError
     ↔ fst (get module role id' st) = Raise NotFoundOCPIError).
Proof.
  intros Hreach Hd st'. split.
  - intros module' Hne. unfold st'. by rewrite module_objects_set_ne.
  - intros id' Hne. unfold st'.
    erewrite get_lookup by apply lookup_insert_eq.
    erewrite (get_lookup _ _ _ st) by by apply reachable_lookup.
    specialize (Hd (KStr id') Hne). simpl.
    destruct (odict_get (KStr id') d) as [x|],
      (odict_get (KStr id') (module_objects module st)) as [y|];
      try done.
    + destruct Hd as [Hd _]. by destruct Hd.
    + destruct Hd as [_ Hd]. by destruct Hd.
Qed.

(** X3: a write adds or removes no id but the one it addresses.  After
    create, update or delete in a module, whatever the outcome, every
    other module holds the ids it held before, in the same order, and for
    every other id of the same module get fails with NotFound afterwards
    exactly when it failed before. *)
Theorem writes_keep_other_ids module role st :
  reachable st ->
  (∀ data uuid4 now,
     let st' := snd (create module role data uuid4 now st) in
     (∀ module', module' ≠ module ->
        (module_objects module' st').*1 = (module_objects module' st).*1) ∧
     (∀ id', PStr id' ≠ py_or (dict_get data "id" PNone) (PStr uuid4) ->
        fst (get module role id' st') = Raise NotFoundOCPIError
        ↔ fst (get module role id' st) = Raise NotFoundOCPIError)) ∧
  (∀ data id now,
     let st' := snd (update module role data id now st) in
     (∀ module', module' ≠ module ->
        (module_objects module' st').*1 = (module_objects module' st).*1) ∧
     (∀ id', id' ≠ id ->
        fst (get module role id' st') = Raise NotFoundOCPIError
        ↔ fst (get module role id' st) = Raise NotFoundOCPIError)) ∧
  (∀ id,
     let st' := snd (delete module role id st) in
     (∀ module', module' ≠ module ->
        (module_objects module' st').*1 = (module_objects module' st).*1) ∧
     (∀ id', id' ≠ id ->
        fst (get module role id' st') = Raise NotFoundOCPIError
        ↔ fst (get module role id' st) = Raise NotFoundOCPIError)).
Proof.
  intros Hreach. apply reachable_storage_inv in Hreach as Hinv.
  split_and!.
  - intros data uuid4 now. rewrite (create_state _ _ _ _ _ _ Hinv). cbv zeta.
    destruct (key_of _) as [k|] eqn:Hk; simpl; [|done].
    destruct (set_objects_frame module role
                (odict_set k (<["last_updated" := PStr now]>
                   (<["id" := py_or (dict_get data "id" PNone) (PStr uuid4)]> data))
                   (module_objects module st)) st k Hreach) as [H1 H2].
    { intros k' Hne. by rewrite odict_get_set_ne. }
    split; [exact H1|]. intros id' Hne. apply H2. intros <-.
    destruct (py_or _ _); simplify_eq/=; done.
  - intros data id now. rewrite (update_state _ _ _ _ _ _ Hinv).
    destruct (odict_get _ _) as [old|] eqn:Hold; simpl; [|done].
    destruct (set_objects_frame module role
                (odict_set (KStr id) (<["last_updated" := PStr now]> (data ∪ old))
                   (module_objects module st)) st (KStr id) Hreach) as [H1 H2].
    { intros k' Hne. by rewrite odict_get_set_ne. }
    split; [exact H1|]. intros id' Hne. apply H2. congruence.
  - intros id. rewrite (delete_state _ _ _ _ Hinv).
    destruct (odict_get _ _) as [old|] eqn:Hold; simpl; [|done].
    destruct (set_objects_frame module role
                (odict_del (KStr id) (module_objects module st)) st (KStr id)
                Hreach) as [H1 H2].
    { intros k' Hne. by rewrite odict_get_del_ne. }
    split; [exact H1|]. intros id' Hne. apply H2. congruence.
Qed.

Lemma writes_keep_other_ids_witness :
  (module_objects locations
     (snd (create tariffs emsp {[ "currency" := PStr "EUR" ]}
             "9a8b7c6d-5e4f-4a3b-8c2d-1e0f9a8b7c6d" "2024-02-03T04:05:06+00:00"
             sample_storage))).*1
    = (module_objects locations sample_storage).*1 ∧
  (fst (get locations emsp "LOC001"
          (snd (update locations emsp {[ "name" := PStr "x" ]} "LOC002"
                  "2024-02-03T04:05:06+00:00" sample_storage)))
     = Raise NotFoundOCPIError
   ↔ fst (get locations emsp "LOC001" sample_storage)
     = Raise NotFoundOCPIError) ∧
  (fst (get locations emsp "LOC001"
          (snd (delete locations emsp "LOC002" sample_storage)))
     = Raise NotFoundOCPIError
   ↔ fst (get locations emsp "LOC001" sample_storage)
     = Raise NotFoundOCPIError).
Proof.
  assert (Hreach : reachable sample_storage).
  { apply reachable_create; [apply reachable_init|done]. }
  split_and!.
  - destruct (writes_keep_other_ids tariffs emsp sample_storage Hreach)
      as (Hc & _ & _).
    apply (Hc {[ "currency" := PStr "EUR" ]}). done.
  - destruct (writes_keep_other_ids locations emsp sample_storage Hreach)
      as (_ & Hu & _).
    apply (Hu {[ "name" := PStr "x" ]} "LOC002"). done.
  - destruct (writes_keep_other_ids locations emsp sample_storage Hreach)
      as (_ & _ & Hd).
    apply (Hd "LOC002"). done.
Defined.

(** X4: delete followed by get.  Deleting a stored object returns normally
    and takes exactly that object out of the module; a following get for
    the id, and a second delete, both fail with NotFound and change
    nothing. *)
Theorem delete_then_not_found module role id st old :
  reachable st ->
  odict_get (KStr id) (module_objects module st) = Some old ->
  ∃ st',
    delete module role id st = (Return tt, st') ∧
    get module role id st' = (Raise NotFoundOCPIError, st') ∧
    delete module role id st' = (Raise NotFoundOCPIError, st') ∧
    S (length (module_objects module st')) = length (module_objects module st).
Proof.
  intros Hreach Hold. apply reachable_storage_inv in Hreach as Hinv.
  assert (Hreach' : reachable (snd (delete module role id st))).
  { by apply reachable_delete. }
  apply reachable_storage_inv in Hreach' as Hinv'.
  revert Hinv'. rewrite (delete_state _ _ _ _ Hinv), Hold. simpl. intros Hinv'.
  assert (Hgone : odict_get (KStr id)
            (module_objects module
               (<[_get_storage_key module :=
                    odict_del (KStr id) (module_objects module st)]> st)) = None).
  { rewrite module_objects_set. by apply odict_get_del_eq, reachable_keys_NoDup. }
  eexists. split_and!; [reflexivity| | |].
  - by rewrite (get_result _ _ _ _ Hinv'), Hgone.
  - by rewrite (delete_state _ _ _ _ Hinv'), Hgone.
  - rewrite module_objects_set. by eapply odict_del_length.
Qed.

Lemma delete_then_not_found_witness :
  ∃ st',
    delete locations emsp "LOC001" sample_storage = (Return tt, st') ∧
    get locations emsp "LOC001" st' = (Raise NotFoundOCPIError, st') ∧
    delete locations emsp "LOC001" st' = (Raise NotFoundOCPIError, st') ∧
    S (length (module_objects locations st')) = 1.
Proof.
  apply (delete_then_not_found locations emsp "LOC001" sample_storage
           sample_stored_location).
  - apply reachable_create; [apply reachable_init|done].
  - vm_compute. reflexivity.
Defined.

(** X5: get and delete for an id under which the module stores nothing
    fail with NotFound and leave the storage as it was. *)
Theorem absent_id_not_found module role id st :
  reachable st ->
  odict_get (KStr id) (module_objects module st) = None ->
  get module role id st = (Raise NotFoundOCPIError, st) ∧
  delete module role id st = (Raise NotFoundOCPIError, st).
Proof.
  intros Hreach Hnone. apply reachable_storage_inv in Hreach as Hinv.
  by rewrite (get_result _ _ _ _ Hinv), (delete_state _ _ _ _ Hinv), Hnone.
Qed.

Lemma absent_id_not_found_witness :
  get sessions emsp "SES001" _storage = (Raise NotFoundOCPIError, _storage) ∧
  delete sessions emsp "SES001" _storage = (Raise NotFoundOCPIError, _storage).
Proof.
  apply absent_id_not_found; [apply reachable_init|reflexivity].
Defined.

(** X6: update never adds, removes or moves an object: after an update,
    whatever its outcome, every module holds the ids it held before, in
    the same order. *)
Theorem update_keeps_ids module role data id now st :
  reachable st ->
  ∀ module',
    (module_objects module' (snd (update module role data id now st))).*1
      = (module_objects module' st).*1.
Proof.
  intros Hreach module'. apply reachable_storage_inv in Hreach as Hinv.
  rewrite (update_state _ _ _ _ _ _ Hinv).
  destruct (odict_get _ _) as [old|] eqn:Hold; simpl; [|done].
  destruct (decide (module = module')) as [->|Hne].
  - rewrite module_objects_set. by eapply odict_set_keys_present.
  - by rewrite module_objects_set_ne.
Qed.

Lemma update_keeps_ids_witness :
  (module_objects locations
     (snd (update locations emsp {[ "id" := PStr "LOC009" ]} "LOC001"
             "2024-02-03T04:05:06+00:00" sample_storage))).*1
    = (module_objects locations sample_storage).*1.
Proof.
  apply update_keeps_ids.
  apply reachable_create; [apply reachable_init|done].
Defined.

(** X7: in every storage that the writing methods lead to, the ids of a
    module are pairwise distinct and none is empty or otherwise falsy, and
    every stored object carries an id field and a last_updated field that
    is a string. *)
Theorem stored_objects_invariant module st :
  reachable st ->
  NoDup (module_objects module st).*1 ∧
  Forall (λ kv, truthy_key kv.1 = true ∧ is_Some (kv.2 !! "id") ∧
                ∃ t, kv.2 !! "last_updated" = Some (PStr t))
         (module_objects module st).
Proof.
  intros Hreach. split; [by apply reachable_keys_NoDup|].
  revert module.
  apply (reachable_objects_ind
           (Forall (λ kv, truthy_key kv.1 = true ∧ is_Some (kv.2 !! "id") ∧
                          ∃ t, kv.2 !! "last_updated" = Some (PStr t))));
    [constructor| | | |done].
  - intros d k data i now Hd Hi Hk. apply odict_set_Forall; [|done]. simpl.
    split_and!.
    + by rewrite <- (key_of_truthy _ _ Hk).
    + rewrite lookup_insert_ne by done. rewrite lookup_insert_eq. by eexists.
    + eexists. apply lookup_insert_eq.
  - intros d i old data now Hd Hold. apply odict_set_Forall; [|done].
    apply odict_get_elem_of in Hold.
    destruct (proj1 (Forall_forall _ _) Hd _ Hold) as (Hk & Hid & _).
    simpl in *. split_and!; [done| |].
    + rewrite lookup_insert_ne by done.
      destruct Hid as [v Hv]. destruct (data !! "id") as [w|] eqn:Hw.
      * exists w. by apply lookup_union_Some_l.
      * exists v. by rewrite lookup_union_r.
    + eexists. apply lookup_insert_eq.
  - intros d i Hd. by apply odict_del_Forall.
Qed.

Lemma stored_objects_invariant_witness :
  NoDup (module_objects locations sample_storage).*1 ∧
  Forall (λ kv, truthy_key kv.1 = true ∧ is_Some (kv.2 !! "id") ∧
                ∃ t, kv.2 !! "last_updated" = Some (PStr t))
         (module_objects locations sample_storage).
Proof.
  apply stored_objects_invariant.
  apply reachable_create; [apply reachable_init|done].
Defined.

(** X8: an id that cannot be a dictionary key is refused: create called
    with data whose id is a non-empty list or a non-empty dictionary raises
    TypeError and stores the object under no id: every module holds the ids
    it held before, in the same order. *)
Theorem create_unhashable_id module role data uuid4 now st v :
  reachable st ->
  data !! "id" = Some v ->
  truthy v = true ->
  key_of v = None ->
  fst (create module role data uuid4 now st) = Raise TypeError ∧
  ∀ module',
    (module_objects module' (snd (create module role data uuid4 now st))).*1
      = (module_objects module' st).*1.
Proof.
  intros Hreach Hid Htruthy Hkey. apply reachable_storage_inv in Hreach as Hinv.
  rewrite (create_state _ _ _ _ _ _ Hinv). cbv zeta.
  unfold dict_get, py_or. rewrite Hid. simpl. by rewrite Htruthy, Hkey.
Qed.

Lemma create_unhashable_id_witness :
  fst (create locations emsp {[ "id" := PList [PStr "LOC001"] ]}
         "9a8b7c6d-5e4f-4a3b-8c2d-1e0f9a8b7c6d" "2024-02-03T04:05:06+00:00"
         sample_storage)
    = Raise TypeError ∧
  (module_objects locations
     (snd (create locations emsp {[ "id" := PList [PStr "LOC001"] ]}
             "9a8b7c6d-5e4f-4a3b-8c2d-1e0f9a8b7c6d" "2024-02-03T04:05:06+00:00"
             sample_storage))).*1
    = (module_objects locations sample_storage).*1.
Proof.
  destruct (create_unhashable_id locations emsp
              {[ "id" := PList [PStr "LOC001"] ]}
              "9a8b7c6d-5e4f-4a3b-8c2d-1e0f9a8b7c6d" "2024-02-03T04:05:06+00:00"
              sample_storage (PList [PStr "LOC001"])) as [H1 H2].
  - apply reachable_create; [apply reachable_init|done].
  - reflexivity.
  - reflexivity.
  - reflexivity.
  - split; [exact H1|apply H2].
Defined.
End module_store_more.

(** ** More on slices *)

Lemma py_slice_nonneg {A} (l : list A) (start stop : Z) :
  (0 ≤ start)%Z -> (0 ≤ stop)%Z ->
  py_slice l start stop
    = take (Z.to_nat stop - Z.to_nat start) (drop (Z.to_nat start) l).
Proof.
  intros Hs He. unfold py_slice, slice_index.
  destruct (Z.ltb_spec start 0), (Z.ltb_spec stop 0); try lia.
  destruct (decide (Z.of_nat (length l) ≤ start)%Z) as [Hge|Hlt].
  - rewrite !drop_ge by lia. by rewrite !take_nil.
  - rewrite (Z.min_l start) by lia.
    destruct (decide (Z.of_nat (length l) ≤ stop)%Z) as [Hge'|Hlt'].
    + rewrite (Z.min_r stop) by lia.
      rewrite !take_ge; [done|rewrite length_drop; lia..].
    + rewrite (Z.min_l stop) by lia. f_equal. lia.
Qed.

Lemma py_slice_all {A} (l : list A) (stop : Z) :
  (Z.of_nat (length l) ≤ stop)%Z -> py_slice l 0 stop = l.
Proof.
  intros Hge. rewrite py_slice_nonneg by lia. simpl. rewrite drop_0.
  apply take_ge. lia.
Qed.

Lemma py_slice_beyond {A} (l : list A) (start stop : Z) :
  (Z.of_nat (length l) ≤ start)%Z -> (0 ≤ stop)%Z -> py_slice l start stop = [].
Proof.
  intros Hge He. rewrite py_slice_nonneg by lia.
  rewrite drop_ge by lia. apply take_nil.
Qed.

Lemma py_slice_app {A} (l : list A) (a b c : Z) :
  (0 ≤ a ≤ b)%Z -> (b ≤ c)%Z ->
  (py_slice l a b ++ py_slice l b c)%list = py_slice l a c.
Proof.
  intros Hab Hbc. rewrite !py_slice_nonneg by lia.
  replace (Z.to_nat b) with (Z.to_nat a + (Z.to_nat b - Z.to_nat a))%nat at 3 by lia.
  rewrite <- drop_drop, take_take_drop. f_equal. lia.
Qed.

Lemma py_slice_negative_stop {A} (l : list A) (stop : Z) :
  (- Z.of_nat (length l) ≤ stop < 0)%Z ->
  py_slice l 0 stop = take (Z.to_nat (Z.of_nat (length l) + stop)) l.
Proof.
  intros Hstop. unfold py_slice, slice_index.
  destruct (Z.ltb_spec 0 0), (Z.ltb_spec stop 0); try lia.
  rewrite Z.min_l by lia. simpl. rewrite drop_0. f_equal. lia.
Qed.

Lemma py_slice_clip {A} (l : list A) (start stop : Z) :
  (0 ≤ stop)%Z ->
  py_slice l start (Z.min stop (Z.of_nat (length l))) = py_slice l start stop.
Proof.
  intros He. unfold py_slice, slice_index.
  destruct (Z.ltb_spec stop 0), (Z.ltb_spec (Z.min stop (Z.of_nat (length l))) 0);
    try lia.
  f_equal. f_equal. lia.
Qed.

(** ** ModuleStore: paging *)

Section paging.
Import EMSPCrud.
Implicit Types (st : state) (module : ModuleID) (role : RoleEnum).

(** X9: a list call with offset 0 and a limit that is at least the number
    of stored objects returns all the objects stored for the module, one
    for each stored id and in the order in which the dictionary of the
    module holds its ids, their number as total_count, and reports the
    last page. *)
Theorem list_returns_everything module role filters st limit :
  reachable st ->
  as_int (dict_get filters "offset" (PInt 0)) = Some 0%Z ->
  as_int (dict_get filters "limit" (PInt 50)) = Some limit ->
  (Z.of_nat (length (module_objects module st)) ≤ limit)%Z ->
  list_ module role filters st
    = (Return (odict_values (module_objects module st),
               Z.of_nat (length (module_objects module st)), true), st).
Proof.
  intros Hreach Ho Hl Hlim. apply reachable_storage_inv in Hreach.
  rewrite (list_result _ _ _ _ _ _ Hreach Ho Hl). cbv zeta.
  rewrite Z.min_r by lia. rewrite py_slice_all by (rewrite odict_values_length; lia).
  do 3 f_equal. apply Z.geb_le. lia.
Qed.

Lemma list_returns_everything_witness :
  list_ locations emsp ∅ sample_storage
    = (Return ([sample_stored_location], 1%Z, true), sample_storage).
Proof.
  apply (list_returns_everything locations emsp ∅ sample_storage 50).
  - apply reachable_create; [apply reachable_init|done].
  - reflexivity.
  - reflexivity.
  - vm_compute. discriminate.
Defined.

(** X10: consecutive pages join.  For non-negative offset and limits, the
    items of the page at offset with limit1 followed by the items of the
    page at offset + limit1 with limit2 are the items of the one page at
    offset with limit1 + limit2; the three calls report the same
    total_count, and once a page is reported last the page after it is
    empty. *)
Theorem list_pages_concatenate module role f1 f2 f12 st offset limit1 limit2 :
  reachable st ->
  as_int (dict_get f1 "offset" (PInt 0)) = Some offset ->
  as_int (dict_get f1 "limit" (PInt 50)) = Some limit1 ->
  as_int (dict_get f2 "offset" (PInt 0)) = Some (offset + limit1)%Z ->
  as_int (dict_get f2 "limit" (PInt 50)) = Some limit2 ->
  as_int (dict_get f12 "offset" (PInt 0)) = Some offset ->
  as_int (dict_get f12 "limit" (PInt 50)) = Some (limit1 + limit2)%Z ->
  (0 ≤ offset)%Z -> (0 ≤ limit1)%Z -> (0 ≤ limit2)%Z ->
  ∃ items1 items2 last1 last2 total,
    list_ module role f1 st = (Return (items1, total, last1), st) ∧
    list_ module role f2 st = (Return (items2, total, last2), st) ∧
    list_ module role f12 st = (Return ((items1 ++ items2)%list, total, last2), st) ∧
    (last1 = true -> items2 = []).
Proof.
  intros Hreach Ho1 Hl1 Ho2 Hl2 Ho12 Hl12 Ho Hlim1 Hlim2.
  apply reachable_storage_inv in Hreach.
  rewrite (list_result _ _ _ _ _ _ Hreach Ho1 Hl1),
    (list_result _ _ _ _ _ _ Hreach Ho2 Hl2),
    (list_result _ _ _ _ _ _ Hreach Ho12 Hl12). cbv zeta.
  set (all := odict_values (module_objects module st)).
  assert (Hn : length (module_objects module st) = length all).
  { unfold all. by rewrite odict_values_length. }
  rewrite Hn. rewrite (Z.add_assoc offset limit1 limit2).
  eexists _, _, _, _, _. split_and!; [reflexivity|reflexivity| |].
  - rewrite !py_slice_clip by lia. by rewrite py_slice_app by lia.
  - intros Hlast%Z.geb_le. apply py_slice_beyond; lia.
Qed.

Lemma list_pages_concatenate_witness :
  ∃ items1 items2 last1 last2 total,
    list_ locations emsp {[ "limit" := PInt 1 ]} sample_storage
      = (Return (items1, total, last1), sample_storage) ∧
    list_ locations emsp {[ "offset" := PInt 1; "limit" := PInt 1 ]}
        sample_storage
      = (Return (items2, total, last2), sample_storage) ∧
    list_ locations emsp {[ "limit" := PInt 2 ]} sample_storage
      = (Return ((items1 ++ items2)%list, total, last2), sample_storage) ∧
    (last1 = true -> items2 = []).
Proof.
  apply (list_pages_concatenate locations emsp _ _ _ sample_storage 0 1 1);
    try reflexivity; try lia.
  apply reachable_create; [apply reachable_init|done].
Defined.

(** X11: a list call whose offset is at or beyond the number of stored
    objects returns no item, the unchanged total_count, and reports the
    last page. *)
Theorem list_offset_beyond_end module role filters st offset limit :
  reachable st ->
  as_int (dict_get filters "offset" (PInt 0)) = Some offset ->
  as_int (dict_get filters "limit" (PInt 50)) = Some limit ->
  (Z.of_nat (length (module_objects module st)) ≤ offset)%Z ->
  (0 ≤ limit)%Z ->
  list_ module role filters st
    = (Return ([], Z.of_nat (length (module_objects module st)), true), st).
Proof.
  intros Hreach Ho Hl Hoff Hlim. apply reachable_storage_inv in Hreach.
  rewrite (list_result _ _ _ _ _ _ Hreach Ho Hl). cbv zeta.
  rewrite py_slice_beyond by (rewrite ?odict_values_length; lia).
  do 3 f_equal. apply Z.geb_le. lia.
Qed.

Lemma list_offset_beyond_end_witness :
  list_ locations emsp {[ "offset" := PInt 7 ]} sample_storage
    = (Return ([], 1%Z, true), sample_storage).
Proof.
  apply (list_offset_beyond_end locations emsp _ sample_storage 7 50).
  - apply reachable_create; [apply reachable_init|done].
  - reflexivity.
  - reflexivity.
  - vm_compute. discriminate.
  - lia.
Defined.

(** X12: a negative limit is not rejected.  With offset 0 and a limit
    between minus the number of stored objects and -1, list returns all
    stored objects but the last -limit ones, and reports that the page is
    not the last. *)
Theorem list_negative_limit module role filters st limit :
  reachable st ->
  as_int (dict_get filters "offset" (PInt 0)) = Some 0%Z ->
  as_int (dict_get filters "limit" (PInt 50)) = Some limit ->
  (- Z.of_nat (length (module_objects module st)) ≤ limit < 0)%Z ->
  list_ module role filters st
    = (Return (take (Z.to_nat (Z.of_nat (length (module_objects module st)) + limit))
                 (odict_values (module_objects module st)),
               Z.of_nat (length (module_objects module st)), false), st).
Proof.
  intros Hreach Ho Hl Hlim. apply reachable_storage_inv in Hreach.
  rewrite (list_result _ _ _ _ _ _ Hreach Ho Hl). cbv zeta.
  rewrite Z.min_l by lia.
  rewrite py_slice_negative_stop by (rewrite odict_values_length; lia).
  rewrite odict_values_length. do 3 f_equal.
  rewrite Z.geb_leb. apply Z.leb_gt. lia.
Qed.

Lemma list_negative_limit_witness :
  list_ locations emsp {[ "limit" := PInt (-1) ]} sample_storage
    = (Return ([], 1%Z, false), sample_storage).
Proof.
  apply (list_negative_limit locations emsp _ sample_storage (-1)).
  - apply reachable_create; [apply reachable_init|done].
  - reflexivity.
  - reflexivity.
  - vm_compute. split; [discriminate|reflexivity].
Defined.
End paging.

(** ** ModuleStore: the summary and the actions *)

Section summary.
Import EMSPCrud.
Implicit Types (st : state) (module : ModuleID) (role : RoleEnum).

Lemma reachable_dom st : reachable st -> dom st = dom _storage.
Proof.
  assert (Hset : ∀ st module (d : odict object),
            storage_inv st -> dom (<[_get_storage_key module := d]> st) = dom st).
  { intros st0 module d Hinv. rewrite dom_insert_L.
    destruct (storage_inv_lookup st0 module Hinv) as [Hd _].
    apply elem_of_dom_2 in Hd.
    by apply subseteq_union_1_L, singleton_subseteq_l. }
  induction 1 as [|st m role data uuid4 now Hreach IH Hu
                  |st m role data id now Hreach IH
                  |st m role id Hreach IH]; [done|..];
    apply reachable_storage_inv in Hreach.
  - rewrite (create_state _ _ _ _ _ _ Hreach). cbv zeta.
    destruct (key_of _); simpl; [by rewrite Hset|done].
  - rewrite (update_state _ _ _ _ _ _ Hreach).
    destruct (odict_get _ _); simpl; [by rewrite Hset|done].
  - rewrite (delete_state _ _ _ _ Hreach).
    destruct (odict_get _ _); simpl; [by rewrite Hset|done].
Qed.

(** X13: the summary has an entry for each of the nine storage keys and no
    other, the entry of a module is the number of objects stored for it,
    and that number is the total_count that every list call on the module
    returns. *)
Theorem summary_counts module st :
  reachable st ->
  ∃ summary,
    get_mock_data_summary st = (Return summary, st) ∧
    dom summary = dom _storage ∧
    summary !! _get_storage_key module
      = Some (Z.of_nat (length (module_objects module st))) ∧
    (∀ role filters items total last,
       list_ module role filters st = (Return (items, total, last), st) ->
       summary !! _get_storage_key module = Some total).
Proof.
  intros Hreach. eexists. split; [reflexivity|].
  assert (Hcount : ((λ d : odict object, Z.of_nat (length d)) <$> st)
            !! _get_storage_key module
          = Some (Z.of_nat (length (module_objects module st)))).
  { by rewrite lookup_fmap, (reachable_lookup _ _ Hreach). }
  split_and!.
  - rewrite dom_fmap_L. by apply reachable_dom.
  - exact Hcount.
  - intros role filters items total last. rewrite Hcount.
    run_crud. rewrite (reachable_lookup _ _ Hreach).
    destruct (as_int (dict_get filters "offset" (PInt 0))),
      (as_int (dict_get filters "limit" (PInt 50))); intros [= _ <- _]; try done.
    by rewrite odict_values_length.
Qed.

Lemma summary_counts_witness :
  ∃ summary,
    get_mock_data_summary sample_storage = (Return summary, sample_storage) ∧
    summary !! "locations" = Some (Z.of_nat 1) ∧
    summary !! "locations" = Some 1%Z.
Proof.
  assert (Hreach : reachable sample_storage).
  { apply reachable_create; [apply reachable_init|done]. }
  destruct (summary_counts locations sample_storage Hreach)
    as (summary & H1 & _ & H3 & H4).
  exists summary. split_and!; [exact H1|exact H3|].
  apply (H4 emsp ∅ (py_slice (odict_values (module_objects locations sample_storage))
                      0 (Z.min (0 + 50) 1)) 1%Z true).
  apply (list_result locations emsp ∅ sample_storage 0 50);
    [by apply reachable_storage_inv|reflexivity|reflexivity].
Defined.

(** X14: [do] never raises and never touches the storage, and its result
    depends on the action, the keyword arguments and the uuid only, not on
    the module, the role or the data; for each of the three charging
    profile actions the result is ACCEPTED with timeout 30 and the message
    made of the words Charging profile, the value of the action and the
    word accepted. *)
Theorem do_leaves_storage action_value module (role : option RoleEnum) action
    data kwargs uuid4 st :
  ∃ v,
    do action_value module role action data kwargs uuid4 st = (Return v, st) ∧
    (∀ module' (role' : option RoleEnum) data' st',
       do action_value module' role' action data' kwargs uuid4 st'
         = (Return v, st')) ∧
    (action ∈ [send_get_chargingprofile; send_delete_chargingprofile;
               send_update_charging_profile] ->
     v = PDict {[ "result" := PStr "ACCEPTED"; "timeout" := PInt 30;
                  "message" := PStr ("Charging profile " ++ action_value action
                                     ++ " accepted") ]}).
Proof.
  destruct action; (eexists; split_and!; [reflexivity|reflexivity|]);
    intros Hin; try reflexivity;
    apply (bool_decide_pack _) in Hin; vm_compute in Hin; contradiction.
Qed.

Lemma do_leaves_storage_witness :
  do sample_action_value charging_profile (Some emsp)
    send_delete_chargingprofile None ∅
    "9a8b7c6d-5e4f-4a3b-8c2d-1e0f9a8b7c6d" sample_storage
  = (Return (PDict {[ "result" := PStr "ACCEPTED"; "timeout" := PInt 30;
                      "message" := PStr "Charging profile SendDeleteChargingProfile accepted" ]}),
     sample_storage).
Proof.
  destruct (do_leaves_storage sample_action_value charging_profile (Some emsp)
              send_delete_chargingprofile None ∅
              "9a8b7c6d-5e4f-4a3b-8c2d-1e0f9a8b7c6d" sample_storage)
    as (v & H1 & _ & H3).
  rewrite H1, H3; [reflexivity|].
  apply (bool_decide_unpack _). vm_compute. exact I.
Defined.
End summary.

(** ** Strings *)

Lemma string_length_app (s1 s2 : string) :
  String.length (s1 ++ s2) = (String.length s1 + String.length s2)%nat.
Proof. induction s1 as [|c s1 IH]; simpl; [done|by rewrite IH]. Qed.

Lemma string_length_substring (n m : nat) (s : string) :
  (String.length (String.substring n m s) ≤ m)%nat.
Proof.
  revert n m. induction s as [|c s IH]; intros [|n] [|m]; simpl; try lia.
  - specialize (IH 0%nat m). lia.
  - apply (IH n 0%nat).
  - apply (IH n (S m)).
Qed.

(** ** TokenStore: removal, round trips and queries *)

Lemma list_remove_absent x l : x ∉ l -> list_remove x l = l.
Proof.
  induction l as [|y l IH]; simpl; [done|].
  rewrite not_elem_of_cons. intros [Hne Hin].
  rewrite decide_False by done. by rewrite IH.
Qed.

Lemma list_remove_snoc x l : x ∉ l -> list_remove x (l ++ [x]) = l.
Proof.
  induction l as [|y l IH]; simpl.
  - intros _. by rewrite decide_True.
  - rewrite not_elem_of_cons. intros [Hne Hin].
    rewrite decide_False by done. by rewrite IH.
Qed.

Lemma list_remove_gone x l : NoDup l -> x ∉ list_remove x l.
Proof.
  induction 1 as [|y l Hy Hl IH]; simpl; [apply not_elem_of_nil|].
  destruct (decide (x = y)) as [->|Hne]; [done|].
  rewrite not_elem_of_cons. by split.
Qed.

Lemma list_remove_length x l :
  x ∈ l -> S (length (list_remove x l)) = length l.
Proof.
  induction l as [|y l IH]; simpl; [by intros ?%elem_of_nil|].
  destruct (decide (x = y)) as [->|Hne]; [done|].
  rewrite elem_of_cons. intros [?|Hin]; [done|]. simpl. by rewrite IH.
Qed.

Section token_store_more.
Import ClientAuthenticator.
Implicit Types (st : state) (t : string) (c : token_class).

Lemma remove_result c t st :
  fst (remove c t st) = Return (bool_decide (t ∈ tokens_of c st)).
Proof. destruct c; run_method; by case_bool_decide. Qed.

Lemma remove_last_level c t st :
  last_level (snd (remove c t st)) =
    Some (if bool_decide (t ∈ tokens_of c st) then INFO else WARNING).
Proof.
  unfold last_level.
  destruct c; run_method; case_bool_decide; simpl; by rewrite last_snoc.
Qed.

Lemma tokens_of_is_token_valid c token st :
  tokens_of c (snd (is_token_valid token st)) = tokens_of c st.
Proof.
  destruct c, token as [t|]; run_method; try done;
    by destruct (_ || _).
Qed.

Lemma tokens_of_get_token_info c token st :
  tokens_of c (snd (get_token_info token st)) = tokens_of c st.
Proof.
  destruct c; run_method; by repeat destruct (token_in _ _).
Qed.

(** X15: remove returns true exactly when the token was in the list of
    its class, never fails, and never touches the list of the other class;
    removing a token that is not there leaves both lists as they were; the
    log record is of level INFO for a removal and WARNING otherwise. *)
Theorem remove_reports_presence c t st :
  fst (remove c t st) = Return (bool_decide (t ∈ tokens_of c st)) ∧
  tokens_of (other_class c) (snd (remove c t st))
    = tokens_of (other_class c) st ∧
  (t ∉ tokens_of c st ->
     tokens_of c (snd (remove c t st)) = tokens_of c st) ∧
  last_level (snd (remove c t st))
    = Some (if bool_decide (t ∈ tokens_of c st) then INFO else WARNING).
Proof.
  split_and!.
  - apply remove_result.
  - apply remove_tokens_other_class.
  - intros Hnot. rewrite remove_tokens_same_class. by apply list_remove_absent.
  - apply remove_last_level.
Qed.

Lemma remove_reports_presence_witness :
  ("invalid_token_xyz" ∉ tokens_of TOKEN_C initial) ∧
  tokens_of TOKEN_C (snd (remove TOKEN_C "invalid_token_xyz" initial))
    = tokens_of TOKEN_C initial.
Proof.
  assert (Hnot : "invalid_token_xyz" ∉ tokens_of TOKEN_C initial).
  { apply (bool_decide_unpack _). vm_compute. exact I. }
  split; [exact Hnot|].
  exact (proj1 (proj2 (proj2 (remove_reports_presence
                                TOKEN_C "invalid_token_xyz" initial))) Hnot).
Defined.

(** X16: on a list without duplicates, remove takes the token out and
    nothing else: afterwards the token is not in the list of its class,
    every other token is in it exactly when it was before, the list is one
    shorter when the token was there, and a second remove returns false. *)
Theorem remove_takes_token_out c t st :
  NoDup (tokens_of c st) ->
  (t ∉ tokens_of c (snd (remove c t st))) ∧
  (∀ t', t' ≠ t ->
     t' ∈ tokens_of c (snd (remove c t st)) ↔ t' ∈ tokens_of c st) ∧
  (t ∈ tokens_of c st ->
     S (length (tokens_of c (snd (remove c t st)))) = length (tokens_of c st)) ∧
  fst (remove c t (snd (remove c t st))) = Return false.
Proof.
  intros Hnd.
  assert (Hgone : t ∉ tokens_of c (snd (remove c t st))).
  { rewrite remove_tokens_same_class. by apply list_remove_gone. }
  split_and!.
  - exact Hgone.
  - intros t' Hne. rewrite remove_tokens_same_class. split.
    + apply list_remove_elem_of.
    + by apply list_remove_other.
  - intros Hin. rewrite remove_tokens_same_class. by apply list_remove_length.
  - rewrite remove_result. by rewrite bool_decide_eq_false_2.
Qed.

Lemma remove_takes_token_out_witness :
  ("emsp_token_a_67890"
     ∉ tokens_of TOKEN_A (snd (remove TOKEN_A "emsp_token_a_67890" initial))) ∧
  ("emsp_token_a_12345"
     ∈ tokens_of TOKEN_A (snd (remove TOKEN_A "emsp_token_a_67890" initial))) ∧
  S (length (tokens_of TOKEN_A
               (snd (remove TOKEN_A "emsp_token_a_67890" initial)))) = 3%nat.
Proof.
  destruct (remove_takes_token_out TOKEN_A "emsp_token_a_67890" initial)
    as (H1 & H2 & H3 & _).
  - apply (bool_decide_unpack _). vm_compute. exact I.
  - split_and!; [exact H1| |].
    + apply H2; [done|]. apply (bool_decide_unpack _). vm_compute. exact I.
    + apply H3. apply (bool_decide_unpack _). vm_compute. exact I.
Defined.

(** X17: add followed by remove is a round trip: for a token that is not
    in the list of its class, adding it and then removing it gives back
    both lists exactly as they were, order included. *)
Theorem add_then_remove c t st :
  t ∉ tokens_of c st ->
  ∀ c', tokens_of c' (snd (remove c t (snd (add c t st)))) = tokens_of c' st.
Proof.
  intros Hnot c'. destruct (decide (c' = c)) as [->|Hne].
  - rewrite remove_tokens_same_class, add_tokens_same_class.
    rewrite bool_decide_eq_false_2 by done. by apply list_remove_snoc.
  - replace c' with (other_class c) by (by destruct c, c').
    by rewrite remove_tokens_other_class, add_tokens_other_class.
Qed.

Lemma add_then_remove_witness :
  tokens_of TOKEN_A
    (snd (remove TOKEN_A "new_emsp_token_a_test"
            (snd (add TOKEN_A "new_emsp_token_a_test" initial))))
    = tokens_of TOKEN_A initial ∧
  tokens_of TOKEN_C
    (snd (remove TOKEN_A "new_emsp_token_a_test"
            (snd (add TOKEN_A "new_emsp_token_a_test" initial))))
    = tokens_of TOKEN_C initial.
Proof.
  assert (Hnot : "new_emsp_token_a_test" ∉ tokens_of TOKEN_A initial).
  { apply (bool_decide_unpack _). vm_compute. exact I. }
  split; apply (add_then_remove TOKEN_A "new_emsp_token_a_test" initial Hnot).
Defined.

(** X18: removing a token from one class does not invalidate it when the
    other class holds it too: on a list without duplicates, after
    remove(c, t) the token t is valid exactly when it is in the list of
    the other class, and it is then classified in that class. *)
Theorem remove_leaves_other_class_valid c t st :
  NoDup (tokens_of c st) ->
  fst (is_token_valid (Some t) (snd (remove c t st)))
    = Return (bool_decide (t ∈ tokens_of (other_class c) st)) ∧
  (t ∈ tokens_of (other_class c) st ->
   ∃ info, fst (get_token_info (Some t) (snd (remove c t st))) = Return info ∧
           info !! "type" = Some (PStr match c with
                                       | TOKEN_A => "TOKEN_C"
                                       | TOKEN_C => "TOKEN_A"
                                       end)) ∧
  (t ∉ tokens_of (other_class c) st ->
   fst (get_token_info (Some t) (snd (remove c t st))) = Return info_unknown).
Proof.
  intros Hnd.
  assert (Hgone : t ∉ tokens_of c (snd (remove c t st))).
  { rewrite remove_tokens_same_class. by apply list_remove_gone. }
  assert (Hother := remove_tokens_other_class c t st).
  rewrite is_token_valid_result, get_token_info_result.
  destruct c; simpl in *; rewrite Hother.
  - rewrite (bool_decide_eq_false_2 _ Hgone). split_and!; [done| |].
    + intros Hin. rewrite (bool_decide_eq_true_2 _ Hin). by eexists.
    + intros Hnot. by rewrite (bool_decide_eq_false_2 _ Hnot).
  - rewrite (bool_decide_eq_false_2 _ Hgone). split_and!.
    + by rewrite orb_false_r.
    + intros Hin. rewrite (bool_decide_eq_true_2 _ Hin). by eexists.
    + intros Hnot. by rewrite (bool_decide_eq_false_2 _ Hnot).
Qed.

Lemma remove_leaves_other_class_valid_witness :
  fst (is_token_valid (Some "emsp_token_a_12345")
         (snd (remove TOKEN_A "emsp_token_a_12345"
                 (exec_ops [Add TOKEN_C "emsp_token_a_12345"] initial))))
    = Return true ∧
  fst (get_token_info (Some "emsp_token_a_67890")
         (snd (remove TOKEN_A "emsp_token_a_67890" initial)))
    = Return info_unknown.
Proof.
  split.
  - apply (remove_leaves_other_class_valid TOKEN_A "emsp_token_a_12345"
             (exec_ops [Add TOKEN_C "emsp_token_a_12345"] initial)).
    apply (bool_decide_unpack _). vm_compute. exact I.
  - apply (remove_leaves_other_class_valid TOKEN_A "emsp_token_a_67890" initial).
    + apply (bool_decide_unpack _). vm_compute. exact I.
    + apply (bool_decide_unpack _). vm_compute. exact I.
Defined.

(** X19: the two queries agree and only read: for every token, None
    included, the valid field of get_token_info is the value that
    is_token_valid returns, the type is UNKNOWN exactly when that value is
    false, and neither call changes a token list. *)
Theorem token_info_agrees_with_validation (token : option string) st :
  ∃ info b,
    fst (get_token_info token st) = Return info ∧
    fst (is_token_valid token st) = Return b ∧
    info !! "valid" = Some (PBool b) ∧
    (info !! "type" = Some (PStr "UNKNOWN") ↔ b = false) ∧
    (∀ c, tokens_of c (snd (get_token_info token st)) = tokens_of c st ∧
          tokens_of c (snd (is_token_valid token st)) = tokens_of c st).
Proof.
  eexists _, _. split_and!.
  - apply get_token_info_result.
  - apply is_token_valid_result.
  - by repeat destruct (token_in _ _).
  - by repeat destruct (token_in _ _).
  - intros c. split;
      [apply tokens_of_get_token_info|apply tokens_of_is_token_valid].
Qed.

Lemma token_info_agrees_with_validation_witness :
  ∃ info,
    fst (get_token_info (Some "invalid_token_xyz") initial) = Return info ∧
    fst (is_token_valid (Some "invalid_token_xyz") initial) = Return false ∧
    info !! "type" = Some (PStr "UNKNOWN").
Proof.
  destruct (token_info_agrees_with_validation (Some "invalid_token_xyz") initial)
    as (info & b & H1 & H2 & _ & H4 & _).
  assert (Hb : b = false).
  { vm_compute in H2. congruence. }
  exists info. split_and!; [exact H1|by rewrite H2, Hb|by apply H4].
Defined.

(** X20: get_token_summary leaves the lists as they are and returns, for
    each class, the number of its tokens and one sample for each of its
    first three tokens, so at most three; when these tokens are ASCII, the
    sample of a token is its first eight characters followed by three
    dots, so it is at most eleven characters long and never shows a whole
    token of more than eight characters. *)
Theorem token_summary_bounded st c :
  ∃ summary samples,
    get_token_summary st = (Return summary, st) ∧
    summary !! match c with TOKEN_A => "tokens_a" | TOKEN_C => "tokens_c" end
      = Some (PDict {[ "count" := PInt (Z.of_nat (length (tokens_of c st)));
                       "samples" := PList (PStr <$> samples) ]}) ∧
    length samples = (length (tokens_of c st) `min` 3)%nat ∧
    (Forall (λ t, EMSPSettings.is_ascii t = true) (take 3 (tokens_of c st)) ->
     samples = (λ t, String.substring 0 8 t ++ "...") <$> take 3 (tokens_of c st) ∧
     Forall (λ s, (String.length s ≤ 11)%nat) samples).
Proof.
  exists {[ "tokens_a" := token_summary (_valid_tokens_a st);
            "tokens_c" := token_summary (_valid_tokens_c st) ]},
    ((λ t, String.substring 0 8 t ++ "...") <$> take 3 (tokens_of c st)).
  split_and!.
  - reflexivity.
  - unfold token_summary, token_samples, prefix8.
    rewrite <- list_fmap_compose. by destruct c.
  - rewrite length_fmap, length_take. lia.
  - intros _. split; [reflexivity|].
    apply Forall_fmap, Forall_forall. intros t _. simpl.
    rewrite string_length_app. simpl.
    pose proof (string_length_substring 0 8 t). lia.
Qed.

Lemma token_summary_bounded_witness :
  ∃ summary,
    get_token_summary initial = (Return summary, initial) ∧
    summary !! "tokens_c"
      = Some (PDict {[ "count" := PInt 4;
                       "samples" := PList [PStr "cpo_toke..."; PStr "cpo_toke...";
                                           PStr "cpo_deve..."] ]}).
Proof.
  destruct (token_summary_bounded initial TOKEN_C)
    as (summary & samples & H1 & H2 & _ & H4).
  destruct H4 as [H4 _].
  { apply (bool_decide_unpack _). vm_compute. exact I. }
  exists summary. split; [exact H1|]. rewrite H2, H4. reflexivity.
Defined.
End token_store_more.

(** ** Settings *)

Section settings.
Import EMSPSettings.

Lemma ascii_upper_idemp c : ascii_upper (ascii_upper c) = ascii_upper c.
Proof. destruct c as [[] [] [] [] [] [] [] []]; reflexivity. Qed.

Lemma ascii_upper_ascii c :
  (Ascii.nat_of_ascii c <? 128)%nat = true ->
  (Ascii.nat_of_ascii (ascii_upper c) <? 128)%nat = true.
Proof. destruct c as [[] [] [] [] [] [] [] []]; vm_compute; done. Qed.

Lemma upper_length v : String.length (upper v) = String.length v.
Proof. induction v as [|c v IH]; simpl; [done|by rewrite IH]. Qed.

Lemma upper_idemp v : upper (upper v) = upper v.
Proof.
  induction v as [|c v IH]; simpl; [done|].
  by rewrite ascii_upper_idemp, IH.
Qed.

Lemma upper_ascii v : is_ascii v = true -> is_ascii (upper v) = true.
Proof.
  induction v as [|c v IH]; simpl; [done|].
  intros [Hc Hv]%andb_prop. by rewrite ascii_upper_ascii, IH.
Qed.

(** X21: for an ASCII value, the validator of COUNTRY_CODE accepts it
    exactly when it has two characters and the validator of PARTY_ID
    exactly when it has three, and each raises ValueError with its message
    for every other length; the value accepted is the input in upper case:
    it has the same length, is ASCII, holds no lower-case letter, and is
    accepted unchanged when validated again. *)
Theorem code_validators v :
  is_ascii v = true ->
  (String.length v = 2%nat ->
     ∃ u, validate_country_code v = Valid u ∧ u = upper v ∧
          String.length u = 2%nat ∧ is_ascii u = true ∧ upper u = u ∧
          validate_country_code u = Valid u) ∧
  (String.length v ≠ 2%nat ->
     validate_country_code v
       = ValueError (PStr "Country code must be exactly 2 characters")) ∧
  (String.length v = 3%nat ->
     ∃ u, validate_party_id v = Valid u ∧ u = upper v ∧
          String.length u = 3%nat ∧ is_ascii u = true ∧ upper u = u ∧
          validate_party_id u = Valid u) ∧
  (String.length v ≠ 3%nat ->
     validate_party_id v
       = ValueError (PStr "Party ID must be exactly 3 characters")).
Proof.
  intros Hascii. unfold validate_country_code, validate_party_id.
  split_and!.
  - intros Hlen. exists (upper v).
    rewrite !upper_length, upper_idemp, Hlen. simpl.
    by rewrite upper_ascii.
  - intros Hlen. apply Nat.eqb_neq in Hlen. by rewrite Hlen.
  - intros Hlen. exists (upper v).
    rewrite !upper_length, upper_idemp, Hlen. simpl.
    by rewrite upper_ascii.
  - intros Hlen. apply Nat.eqb_neq in Hlen. by rewrite Hlen.
Qed.

Lemma code_validators_witness :
  validate_country_code "nl" = Valid "NL" ∧
  validate_party_id "Ems" = Valid "EMS" ∧
  validate_country_code "USA"
    = ValueError (PStr "Country code must be exactly 2 characters") ∧
  validate_party_id "US"
    = ValueError (PStr "Party ID must be exactly 3 characters").
Proof.
  split_and!.
  - destruct (code_validators "nl" eq_refl) as (H & _).
    destruct (H eq_refl) as [u [Hu [Hup _]]]. rewrite Hu, Hup. reflexivity.
  - destruct (code_validators "Ems" eq_refl) as (_ & _ & H & _).
    destruct (H eq_refl) as [u [Hu [Hup _]]]. rewrite Hu, Hup. reflexivity.
  - apply (code_validators "USA" eq_refl). done.
  - apply (code_validators "US" eq_refl). done.
Defined.

(** X22: the validator of PROTOCOL accepts http and https, each returned
    unchanged, and raises ValueError with its message for every other
    value, upper-case spellings included; base_url is the protocol, the
    separator :// and the host, and ocpi_base_url is base_url, a slash and
    the OCPI prefix, so that with an accepted protocol the two URLs start
    with http:// or with https:// according to the protocol. *)
Theorem accepted_protocol_urls self :
  (∀ v, validate_protocol v =
          if bool_decide (v = "http" ∨ v = "https") then Valid v
          else ValueError (PStr "Protocol must be 'http' or 'https'")) ∧
  base_url self = PROTOCOL self ++ "://" ++ OCPI_HOST self ∧
  ocpi_base_url self = base_url self ++ "/" ++ OCPI_PREFIX self ∧
  (∀ p, validate_protocol (PROTOCOL self) = Valid p ->
     p = PROTOCOL self ∧
     ((p = "http" ∧ base_url self = "http://" ++ OCPI_HOST self ∧
       ocpi_base_url self
         = "http://" ++ OCPI_HOST self ++ "/" ++ OCPI_PREFIX self) ∨
      (p = "https" ∧ base_url self = "https://" ++ OCPI_HOST self ∧
       ocpi_base_url self
         = "https://" ++ OCPI_HOST self ++ "/" ++ OCPI_PREFIX self))).
Proof.
  assert (Hv : ∀ v, validate_protocol v =
            if bool_decide (v = "http" ∨ v = "https") then Valid v
            else ValueError (PStr "Protocol must be 'http' or 'https'")).
  { intros v. unfold validate_protocol.
    case_bool_decide as Hin; case_bool_decide as Hor; try done.
    - destruct Hin. destruct Hor as [-> | ->].
      + apply list_elem_of_here.
      + apply list_elem_of_further, list_elem_of_here.
    - destruct Hor. apply elem_of_cons in Hin as [->|Hin]; [by left|].
      apply list_elem_of_singleton in Hin as ->. by right. }
  split_and!; [exact Hv|reflexivity|reflexivity|].
  intros p. rewrite Hv. case_bool_decide as Hor; [|done].
  intros [= <-]. split; [done|].
  unfold ocpi_base_url, base_url.
  destruct Hor as [Hp|Hp]; rewrite Hp; [by left|by right].
Qed.

Lemma accepted_protocol_urls_witness :
  ocpi_base_url (mk_settings "https" "localhost:8000" "ocpi/emsp/2.2.1" None)
    = "https://localhost:8000/ocpi/emsp/2.2.1".
Proof.
  destruct (accepted_protocol_urls
              (mk_settings "https" "localhost:8000" "ocpi/emsp/2.2.1" None))
    as (_ & _ & _ & H).
  destruct (H "https" eq_refl) as (_ & [(Hp & _)|(_ & _ & Hu)]).
  - discriminate Hp.
  - exact Hu.
Defined.

Lemma string_prefix_app old rest : String.prefix old (old ++ rest) = true.
Proof.
  induction old as [|c old IH]; simpl; [by destruct rest|].
  by destruct (Ascii.ascii_dec c c).
Qed.

Lemma replace_from_skip old new s1 s2 :
  replace_from old new (String.length s1) (s1 ++ s2) = replace_from old new 0 s2.
Proof. induction s1 as [|c s1 IH]; simpl; [done|apply IH]. Qed.

Lemma replace_from_no_occurrence old new s :
  occurs_in old s = false -> replace_from old new 0 s = s.
Proof.
  induction s as [|c s IH]; [done|].
  cbn [occurs_in replace_from].
  intros [Hp Ho]%orb_false_elim. by rewrite Hp, IH.
Qed.

Lemma str_replace_prefix old new rest :
  old ≠ "" -> str_replace old new (old ++ rest) = new ++ str_replace old new rest.
Proof.
  destruct old as [|c old]; [done|]. intros _. unfold str_replace.
  change (String c old ++ rest) with (String c (old ++ rest)).
  cbn [replace_from].
  change (String c (old ++ rest)) with (String c old ++ rest).
  rewrite string_prefix_app. f_equal.
  cbn [String.length]. rewrite Nat.sub_1_r. cbn [Nat.pred].
  apply replace_from_skip.
Qed.

(** X23: the database URLs.  Both are None exactly when DATABASE_URL is
    unset or empty.  A URL that is postgresql:// followed by a rest that
    does not contain postgresql:// becomes postgresql+psycopg2:// and
    postgresql+asyncpg:// followed by the same rest, and a non-empty URL
    that does not contain postgresql:// at all is returned unchanged by
    both. *)
Theorem database_urls self :
  (database_url_sync self = None ↔
     DATABASE_URL self = None ∨ DATABASE_URL self = Some "") ∧
  (database_url_async self = None ↔
     DATABASE_URL self = None ∨ DATABASE_URL self = Some "") ∧
  (∀ rest,
     DATABASE_URL self = Some ("postgresql://" ++ rest) ->
     occurs_in "postgresql://" rest = false ->
     database_url_sync self = Some ("postgresql+psycopg2://" ++ rest) ∧
     database_url_async self = Some ("postgresql+asyncpg://" ++ rest)) ∧
  (∀ url,
     DATABASE_URL self = Some url -> url ≠ "" ->
     occurs_in "postgresql://" url = false ->
     database_url_sync self = Some url ∧ database_url_async self = Some url).
Proof.
  unfold database_url_sync, database_url_async.
  destruct (DATABASE_URL self) as [url|]; cbn [truthy].
  - destruct (String.eqb_spec url "") as [->|Hne]; cbn [negb].
    + split_and!.
      * split; [intros _; by right|reflexivity].
      * split; [intros _; by right|reflexivity].
      * intros rest Hrest. discriminate Hrest.
      * intros url' Hurl Hne. congruence.
    + split_and!.
      * split; [intros H; discriminate H|]. intros [H|H]; congruence.
      * split; [intros H; discriminate H|]. intros [H|H]; congruence.
      * intros rest Hrest Hocc. injection Hrest as ->.
        rewrite (str_replace_prefix "postgresql://" "postgresql+psycopg2://")
          by discriminate.
        rewrite (str_replace_prefix "postgresql://" "postgresql+asyncpg://")
          by discriminate.
        unfold str_replace.
        rewrite (replace_from_no_occurrence _ _ _ Hocc).
        rewrite (replace_from_no_occurrence _ _ _ Hocc).
        split; reflexivity.
      * intros url' Hurl _ Hocc. injection Hurl as <-. unfold str_replace.
        rewrite (replace_from_no_occurrence _ _ _ Hocc).
        rewrite (replace_from_no_occurrence _ _ _ Hocc).
        split; reflexivity.
  - split_and!.
    + split; [intros _; by left|reflexivity].
    + split; [intros _; by left|reflexivity].
    + intros rest Hrest. discriminate Hrest.
    + intros url Hurl. discriminate Hurl.
Qed.

Lemma database_urls_witness :
  database_url_async
    (mk_settings "http" "localhost:8000" "ocpi/emsp/2.2.1"
       (Some "postgresql://emsp:pw@db:5432/ocpi"))
    = Some "postgresql+asyncpg://emsp:pw@db:5432/ocpi" ∧
  database_url_sync
    (mk_settings "http" "localhost:8000" "ocpi/emsp/2.2.1"
       (Some "sqlite:///./emsp.db"))
    = Some "sqlite:///./emsp.db" ∧
  database_url_sync
    (mk_settings "http" "localhost:8000" "ocpi/emsp/2.2.1" (Some ""))
    = None.
Proof.
  split_and!.
  - destruct (database_urls
                (mk_settings "http" "localhost:8000" "ocpi/emsp/2.2.1"
                   (Some "postgresql://emsp:pw@db:5432/ocpi")))
      as (_ & _ & H & _).
    destruct (H "emsp:pw@db:5432/ocpi" eq_refl eq_refl) as [_ Ha]. exact Ha.
  - destruct (database_urls
                (mk_settings "http" "localhost:8000" "ocpi/emsp/2.2.1"
                   (Some "sqlite:///./emsp.db")))
      as (_ & _ & _ & H).
    destruct (H "sqlite:///./emsp.db" eq_refl ltac:(discriminate) eq_refl)
      as [Hs _]. exact Hs.
  - destruct (database_urls
                (mk_settings "http" "localhost:8000" "ocpi/emsp/2.2.1" (Some "")))
      as (H & _).
    apply (proj2 H). right. reflexivity.
Defined.
End settings.

(** ** Settings: the CORS origins *)

Section cors.
Import EMSPSettings.

Lemma split_comma_cons s : ∃ h t, split_comma s = h :: t.
Proof.
  destruct s as [|c s]; simpl; [by eexists _, _|].
  destruct (Ascii.eqb c comma); [by eexists _, _|].
  destruct (split_comma s); by eexists _, _.
Qed.

Lemma split_comma_length s : length (split_comma s) = S (count_commas s).
Proof.
  induction s as [|c s IH]; simpl; [done|].
  destruct (Ascii.eqb c comma); simpl; [by rewrite IH|].
  destruct (split_comma s) as [|h t]; [done|]. by rewrite <- IH.
Qed.

Lemma join_split_comma s : join_comma (split_comma s) = s.
Proof.
  induction s as [|c s IH]; [done|].
  cbn [split_comma]. destruct (split_comma_cons s) as (h & t & Hs).
  rewrite Hs in *. destruct (Ascii.eqb_spec c comma) as [->|Hne].
  - change (join_comma ("" :: h :: t))
      with ("" ++ String comma (join_comma (h :: t))).
    by rewrite IH.
  - destruct t; simpl in *; by rewrite <- IH.
Qed.

Lemma split_comma_no_comma s :
  Forall (λ p, count_commas p = 0%nat) (split_comma s).
Proof.
  induction s as [|c s IH]; simpl; [by repeat constructor|].
  destruct (Ascii.eqb c comma) eqn:Hc; [by constructor|].
  destruct (split_comma s) as [|h t]; [by repeat constructor; simpl; rewrite Hc|].
  apply Forall_cons in IH as [Hh Ht]. constructor; [|done].
  simpl. by rewrite Hc.
Qed.

Lemma lstrip_starts_nonspace s : starts_nonspace (lstrip s).
Proof.
  induction s as [|c s IH]; simpl; [done|].
  by destruct (is_space c) eqn:Hc.
Qed.

Lemma rstrip_starts_nonspace s : starts_nonspace s -> starts_nonspace (rstrip s).
Proof.
  destruct s as [|c s]; simpl; [done|]. intros Hc.
  destruct (rstrip s); simpl; [by rewrite Hc|done].
Qed.

Lemma rstrip_ends_nonspace s : ends_nonspace (rstrip s).
Proof.
  induction s as [|c s IH]; simpl; [done|].
  destruct (rstrip s) as [|d r] eqn:Hr.
  - by destruct (is_space c) eqn:Hc.
  - exact IH.
Qed.

Lemma lstrip_split s : ∃ l, s = l ++ lstrip s ∧ all_space l = true.
Proof.
  induction s as [|c s (l & Hl & Hsp)]; simpl; [by exists ""|].
  destruct (is_space c) eqn:Hc.
  - exists (String c l). split; [|by simpl; rewrite Hc, Hsp].
    change (String c l ++ lstrip s) with (String c (l ++ lstrip s)).
    f_equal. exact Hl.
  - by exists "".
Qed.

Lemma rstrip_split s : ∃ r, s = rstrip s ++ r ∧ all_space r = true.
Proof.
  induction s as [|c s (r & Hr & Hsp)]; simpl; [by exists ""|].
  destruct (rstrip s) as [|d r0] eqn:Hrs.
  - change ("" ++ r) with r in Hr. subst r. destruct (is_space c) eqn:Hc.
    + exists (String c s). split; [done|]. simpl. by rewrite Hc, Hsp.
    + by exists s.
  - exists r. split; [|done].
    change (String c (String d r0) ++ r) with (String c (String d r0 ++ r)).
    f_equal. exact Hr.
Qed.

Lemma strip_stripped_of p : stripped_of p (strip p).
Proof.
  unfold stripped_of, strip.
  destruct (lstrip_split p) as (l & Hl & Hlsp).
  destruct (rstrip_split (lstrip p)) as (r & Hr & Hrsp).
  exists l, r. split_and!; [by rewrite <- Hr|done|done| |].
  - apply rstrip_starts_nonspace, lstrip_starts_nonspace.
  - apply rstrip_ends_nonspace.
Qed.

(** X24: the validator of BACKEND_CORS_ORIGINS.  A list, and a string
    that starts with an opening bracket, are returned as they are; an ASCII
    string that does not start with one is cut at its commas, into pieces
    that hold no comma, are one more than the commas and give the string
    back when joined with commas, and the origins returned are these
    pieces in order, each without the white space at its two ends; any
    other value (None, a number, a dictionary) raises ValueError with the
    value as argument. *)
Theorem cors_origins v :
  (∀ l, v = PList l -> assemble_cors_origins v = Valid v) ∧
  (∀ s, v = PStr s -> String.prefix "[" s = true ->
     assemble_cors_origins v = Valid v) ∧
  (∀ s, v = PStr s -> is_ascii s = true -> String.prefix "[" s = false ->
     ∃ pieces origins,
       assemble_cors_origins v = Valid (PList (PStr <$> origins)) ∧
       join_comma pieces = s ∧
       Forall (λ p, count_commas p = 0%nat) pieces ∧
       length pieces = S (count_commas s) ∧
       Forall2 stripped_of pieces origins) ∧
  ((∀ s, v ≠ PStr s) -> (∀ l, v ≠ PList l) ->
     assemble_cors_origins v = ValueError v).
Proof.
  split_and!.
  - by intros l ->.
  - intros s -> Hp. simpl. by rewrite Hp.
  - intros s -> _ Hp. exists (split_comma s), (strip <$> split_comma s).
    split_and!.
    + simpl. rewrite Hp. simpl. by rewrite <- list_fmap_compose.
    + apply join_split_comma.
    + apply split_comma_no_comma.
    + apply split_comma_length.
    + apply Forall2_fmap_r, Forall_Forall2_diag, Forall_forall.
      intros p _. apply strip_stripped_of.
  - intros Hs Hl. destruct v; try done.
    + by destruct (Hs s).
    + by destruct (Hl l).
Qed.

Lemma cors_origins_witness :
  assemble_cors_origins (PStr "http://localhost:3000, http://localhost:8080")
    = Valid (PList [PStr "http://localhost:3000"; PStr "http://localhost:8080"]) ∧
  assemble_cors_origins (PStr "[]") = Valid (PStr "[]") ∧
  assemble_cors_origins (PInt 8000) = ValueError (PInt 8000).
Proof.
  split_and!.
  - destruct (cors_origins
                (PStr "http://localhost:3000, http://localhost:8080"))
      as (_ & _ & H & _).
    destruct (H _ eq_refl eq_refl eq_refl) as (pieces & origins & H1 & _).
    transitivity (Valid (PList (PStr <$> origins))); [exact H1|].
    rewrite <- H1. reflexivity.
  - destruct (cors_origins (PStr "[]")) as (_ & H & _).
    exact (H _ eq_refl eq_refl).
  - destruct (cors_origins (PInt 8000)) as (_ & _ & _ & H).
    apply H; discriminate.
Defined.
End cors.
